(** * packetizer: dependency resolution and RPM spec rewriting

    A shallow embedding of [packetizer.py]: the [Dependency] and [Package]
    data classes, the requirement parser, the dependency-tree walk of
    [Packetizer._parse_deps_tree] and the line rewriter of
    [Packetizer._patch_spec_data], followed by the properties of them that
    the specification states.

    Python [str] values are [string]s, one character per code point (the
    code points up to 255) and compared by code, as Python compares them;
    lists and tuples are [list]s; an exception is [None]; and the one
    unbounded loop (the [while queue] walk) runs on fuel. *)

From Stdlib Require Import Ascii.
From stdpp Require Import base option list relations sorting strings.

(** ** Python string operations used by the program *)

(** The line feed, the only character the regex [.] refuses. *)
Definition LF : ascii := "010"%char.

Module Str.

(** [s.split(sep)] for a one-character separator: every occurrence cuts,
    empty pieces are kept, and the result is never empty. *)
Fixpoint split (sep : ascii) (s : string) : list string :=
  match s with
  | EmptyString => [EmptyString]
  | String c s' =>
      if Ascii.eqb c sep then EmptyString :: split sep s'
      else match split sep s' with
           | [] => [String c EmptyString]
           | p :: ps => String c p :: ps
           end
  end.

(** The longest prefix whose characters satisfy [p], and what follows it:
    a greedy character-class star at the start of a match. *)
Fixpoint span (p : ascii → bool) (s : string) : string * string :=
  match s with
  | EmptyString => (EmptyString, EmptyString)
  | String c s' =>
      if p c then let '(a, b) := span p s' in (String c a, b)
      else (EmptyString, s)
  end.

(** [needle in hay]. *)
Fixpoint contains (needle hay : string) : bool :=
  String.prefix needle hay ||
  match hay with
  | EmptyString => false
  | String _ hay' => contains needle hay'
  end.

(** [s.endswith(c)] for a one-character suffix. *)
Fixpoint ends_with (c : ascii) (s : string) : bool :=
  match s with
  | EmptyString => false
  | String d EmptyString => Ascii.eqb d c
  | String _ s' => ends_with c s'
  end.

(** [c in s] for one character. *)
Fixpoint has_char (c : ascii) (s : string) : bool :=
  match s with
  | EmptyString => false
  | String d s' => Ascii.eqb d c || has_char c s'
  end.

(** [posixpath.basename]: [p[p.rfind('/') + 1:]], what follows the last
    slash, or all of [p] when it has none. *)
Fixpoint basename (p : string) : string :=
  match p with
  | EmptyString => EmptyString
  | String c p' =>
      if has_char "/"%char p' then basename p'
      else if Ascii.eqb c "/"%char then p' else p
  end.

(** [all(p(c) for c in s)]. *)
Fixpoint all_chars (p : ascii → bool) (s : string) : bool :=
  match s with
  | EmptyString => true
  | String c s' => p c && all_chars p s'
  end.

(** [s.startswith(c)] for one character. *)
Definition starts_with (c : ascii) (s : string) : bool :=
  match s with
  | EmptyString => false
  | String d _ => Ascii.eqb d c
  end.

(** [posixpath.join(a, b)]: an absolute [b] stands alone; otherwise [b] is
    put after [a], with a slash between them unless [a] is empty or ends
    in one. *)
Definition join (a b : string) : string :=
  if starts_with "/"%char b then b
  else if bool_decide (a = EmptyString) || ends_with "/"%char a then a +:+ b
  else a +:+ "/" +:+ b.

(** What is left of [s] after the prefix [p], when [s] starts with it. *)
Fixpoint strip_prefix (p s : string) : option string :=
  match p, s with
  | EmptyString, _ => Some s
  | String a p', String b s' =>
      if Ascii.eqb a b then strip_prefix p' s' else None
  | String _ _, EmptyString => None
  end.

End Str.

(** The regex class [\s] on text, for the code points a character here can
    hold: tab to carriage return, the four separators 28 to 31, the space,
    next line (133) and the no-break space (160). *)
Definition re_space (c : ascii) : bool :=
  let n := nat_of_ascii c in
  (9 <=? n) && (n <=? 13) || (28 <=? n) && (n <=? 32) ||
  (n =? 133) || (n =? 160).

(** [re.search(field + r'([^\s]+)', output)] for a [field] of plain
    characters, and the group of the match: the search takes the first
    place where [field] stands before at least one character that is not
    white space, and the group is the whole run of such characters. *)
Fixpoint search_group1 (field output : string) : option string :=
  let here :=
    rest ← Str.strip_prefix field output;
    let group := (Str.span (λ c, negb (re_space c)) rest).1 in
    if decide (group = EmptyString) then None else Some group in
  match here, output with
  | Some group, _ => Some group
  | None, EmptyString => None
  | None, String _ output' => search_group1 field output'
  end.

(** A [for] loop whose body may raise: the accumulator is threaded through
    the items in order and the first exception ends the loop. *)
Fixpoint for_each {A B} (f : B → A → option B) (b : B) (l : list A)
    : option B :=
  match l with
  | [] => Some b
  | x :: l' => b' ← f b x; for_each f b' l'
  end.

(** ** Total orders by three-way comparison

    [dataclass(order=True)] orders records as the tuples of their fields,
    and Python orders tuples and strings lexicographically. *)

Class Cmp (A : Type) := cmp : A → A → comparison.
Global Hint Mode Cmp ! : typeclass_instances.

Definition cmp_lex (c1 c2 : comparison) : comparison :=
  match c1 with Eq => c2 | _ => c1 end.

Global Instance ascii_cmp : Cmp ascii := Ascii.compare.

Global Instance string_cmp : Cmp string := String.compare.

Global Instance prod_cmp `{Cmp A, Cmp B} : Cmp (A * B) :=
  λ p q, cmp_lex (cmp p.1 q.1) (cmp p.2 q.2).

Fixpoint list_cmp `{Cmp A} (l k : list A) : comparison :=
  match l, k with
  | [], [] => Eq
  | [], _ :: _ => Lt
  | _ :: _, [] => Gt
  | x :: l', y :: k' => cmp_lex (cmp x y) (list_cmp l' k')
  end.
Global Instance list_Cmp `{Cmp A} : Cmp (list A) := list_cmp.

(** What makes a comparison a total order. *)
Class CmpLaws (A : Type) `{Cmp A} := {
  cmp_eq (x y : A) : cmp x y = Eq ↔ x = y;
  cmp_opp (x y : A) : cmp y x = CompOpp (cmp x y);
  cmp_lt_trans (x y z : A) : cmp x y = Lt → cmp y z = Lt → cmp x z = Lt
}.

(** [x <= y], read off the comparison as [not (y < x)]. *)
Definition cmp_le `{Cmp A} (x y : A) : Prop := cmp y x ≠ Lt.

Global Instance cmp_le_dec `{Cmp A} (x y : A) : Decision (cmp_le x y).
Proof. unfold cmp_le. destruct (cmp y x); [left|right|left]; congruence. Defined.

(** [sorted({...})]: the set drops duplicates, [sorted] orders what is
    left.  The order in which a Python set hands out its elements is not
    fixed, but the comparison is a total order, so neither is the result
    sensitive to it ([sorted_set_elems] below). *)
Definition sorted_set `{Cmp A, EqDecision A} (l : list A) : list A :=
  merge_sort cmp_le (remove_dups l).

(** [l.pop(-1)] on a non-empty list: what is left, and the last item. *)
Fixpoint pop_last {A} (l : list A) : option (list A * A) :=
  match l with
  | [] => None
  | x :: l' =>
      match pop_last l' with
      | None => Some ([], x)
      | Some (q, y) => Some (x :: q, y)
      end
  end.

(** ** The dependency-tree report, as [pipdeptree --json] prints it *)

Module Report.

(** One item of an entry's ['dependencies'] list.  A [required_version]
    of [None], which the report gives a dependency without constraint, is
    the empty string here: the parser tests only its truth value, and both
    are false. *)
Record dep := mk_dep {
  package_name : string;
  installed_version : string;
  required_version : string
}.

(** One entry: [entry['package']['package_name']] and
    [entry['dependencies']]. *)
Record entry := mk_entry {
  entry_package_name : string;
  dependencies : list dep
}.

Global Instance dep_eq_dec : EqDecision dep.
Proof. solve_decision. Defined.

End Report.

(** ** class Dependency *)

Module Dependency.

Record t := mk {
  package : string;
  installed : string;
  requires : list (string * string);
  conflicts : list (string * string)
}.

Global Instance eq_dec : EqDecision t.
Proof. solve_decision. Defined.

(** The field tuple that [__eq__], [__hash__] and [__lt__] go by. *)
Definition astuple (d : t) :=
  (package d, (installed d, (requires d, conflicts d))).

Global Instance t_cmp : Cmp t := λ d e, cmp (astuple d) (astuple e).

(** The character class [[<>!=]]. *)
Definition op_char (c : ascii) : bool :=
  Ascii.eqb c "<"%char || Ascii.eqb c ">"%char ||
  Ascii.eqb c "!"%char || Ascii.eqb c "="%char.

Definition not_LF (c : ascii) : bool := negb (Ascii.eqb c LF).

(** The [re.search] of the loop body and, on a match, its [.groups()].
    The pattern is anchored at both ends and has two groups: a starred
    class of the four operator characters, then a starred dot.
    Both stars are greedy, [.] takes anything but a line feed, and [$]
    holds at the end of the string or just before a line feed that ends
    it.  Giving characters back never helps: the position before a
    character that [.] has taken is not an end.  So the search matches
    exactly when what follows the second group is empty or one final
    line feed; otherwise it returns [None], whose [.groups()] raises. *)
Definition search_groups (part : string) : option (string * string) :=
  let '(part_op, rest) := Str.span op_char part in
  let '(part_ver, tail) := Str.span not_LF rest in
  match tail with
  | EmptyString | String _ EmptyString => Some (part_op, part_ver)
  | _ => None
  end.

(** The body of the [for part in ...] loop, on the two accumulators. *)
Definition _requires_step
    (acc : list (string * string) * list (string * string))
    (part : string)
    : option (list (string * string) * list (string * string)) :=
  '(part_op, part_ver) ← search_groups part;
  let '(requires, conflicts) := acc in
  if decide (part_op ≠ "!=")
  then Some (requires ++ [(part_op, part_ver)], conflicts)
  else Some (requires, conflicts ++ [(part_op, part_ver)]).

Definition _requires (requirement : string)
    : option (list (string * string) * list (string * string)) :=
  if decide (requirement = "") then Some ([], [])
  else for_each _requires_step ([], []) (Str.split ","%char requirement).

Definition __str__ (self : t) : string :=
  let total := requires self ++ conflicts self in
  let parts := (λ part, part.1 +:+ part.2) <$> total in
  package self +:+ " " +:+ String.concat "," parts.

Definition parse (dep : Report.dep) : option t :=
  '(requires, conflicts) ← _requires (Report.required_version dep);
  Some (mk (Report.package_name dep) (Report.installed_version dep)
           requires conflicts).

End Dependency.

(** ** class Package *)

Module Package.

Record t := mk {
  package : string;
  version : string;
  archive : string;
  sources : string;
  own_deps : list Dependency.t;
  all_deps : list Dependency.t
}.

(** [Package(package=p, version=v)].  The two dependency fields start as
    [None] in Python and are lists from the first resolution on; nothing
    reads them before that. *)
Definition new (p v : string) : t := mk p v "" "" [] [].

Definition set_deps (self : t) (own all : list Dependency.t) : t :=
  mk (package self) (version self) (archive self) (sources self) own all.

(** The character class [[<>=]]. *)
Definition ver_op_char (c : ascii) : bool :=
  Ascii.eqb c "<"%char || Ascii.eqb c ">"%char || Ascii.eqb c "="%char.

(** Whether the anchored pattern of one or more [[<>=]] matches at the
    start of [s]: it does exactly when the first character is in the
    class. *)
Definition match_ver_ops (s : string) : bool :=
  match s with
  | EmptyString => false
  | String c _ => ver_op_char c
  end.

Definition expression (self : t) : string :=
  if match_ver_ops (version self) then package self +:+ version self
  else if decide (version self ≠ "")
  then package self +:+ "==" +:+ version self
  else package self.

End Package.

(** ** main: the package expression of the command line *)

Module Main.

(** The negated class of the pattern: any character but [<], [>], [=],
    the line feed included. *)
Definition name_char (c : ascii) : bool := negb (Package.ver_op_char c).

(** The [re.search] on [args.package] and its two groups.  The pattern is
    anchored at both ends: one or more characters outside [[<>=]], then a
    starred dot.  The first group is tried longest first, the dot stops at
    a line feed, and [$] holds at the end or before a line feed that ends
    the string.  A shorter first group never helps: the dot would stop at
    the same place or at a line feed inside the name, which ends the string
    only if the whole string is name, and then the longest group matched.
    Without a match the search is [None] and its [.group(1)] raises. *)
Definition search_groups (arg : string) : option (string * string) :=
  let '(package, rest) := Str.span name_char arg in
  if decide (package = "") then None
  else
    let '(verexpr, tail) := Str.span Dependency.not_LF rest in
    match tail with
    | EmptyString | String _ EmptyString => Some (package, verexpr)
    | _ => None
    end.

(** The [Package] that [packetize] makes of the two groups and whose
    [expression] goes to the installer. *)
Definition requested (arg : string) : option Package.t :=
  '(package, verexpr) ← search_groups arg;
  Some (Package.new package verexpr).

End Main.

(** ** class Packetizer *)

(** How a call that loops on fuel can end. *)
Inductive outcome (A : Type) :=
  | Returned (a : A)
  | Raised
  | OutOfFuel.
Global Arguments Returned {A} a.
Global Arguments Raised {A}.
Global Arguments OutOfFuel {A}.

Module Packetizer.

(** The fields of [self] that the two modelled methods read. *)
Record t := mk {
  system_python : string;
  prefix : string
}.

(** [for entry in deps: if entry's name == name: acc.extend(its
    dependencies)], the loop that both collects [own_deps] and refills
    the queue. *)
Definition extend_matching (deps : list Report.entry) (name : string)
    (acc : list Report.dep) : list Report.dep :=
  foldl (λ acc entry,
           if decide (Report.entry_package_name entry = name)
           then acc ++ Report.dependencies entry else acc)
        acc deps.

(** The [while queue] loop, from the state [(all_deps, queue)]. *)
Fixpoint flatify (fuel : nat) (deps : list Report.entry)
    (all_deps queue : list Report.dep) : option (list Report.dep) :=
  match pop_last queue with
  | None => Some all_deps
  | Some (queue, next_entry) =>
      match fuel with
      | 0 => None
      | S fuel =>
          flatify fuel deps (all_deps ++ [next_entry])
            (extend_matching deps (Report.package_name next_entry) queue)
      end
  end.

Definition _parse_deps_tree (fuel : nat) (package : Package.t)
    (deps : list Report.entry) : outcome Package.t :=
  let own_deps := extend_matching deps (Package.package package) [] in
  match flatify fuel deps [] own_deps with
  | None => OutOfFuel
  | Some all_deps =>
      match mapM Dependency.parse own_deps,
            mapM Dependency.parse all_deps with
      | Some own, Some all =>
          Returned (Package.set_deps package (sorted_set own)
                                             (sorted_set all))
      | _, _ => Raised
      end
  end.

Section patch.

(** [_collect_package_metadata] on a fresh [Package(name)], as far as
    the rewriter looks at it: the name that [pip show] reports, or
    [None] when the call raises. *)
Variable collect_name : string → option string.

(** The body of [for dependency in package.own_deps]. *)
Definition declare (self : t) (result : list string)
    (dependency : Dependency.t) : option (list string) :=
  name ← collect_name (Dependency.package dependency);
  let fullname := prefix self +:+ name in
  if bool_decide (Dependency.requires dependency = []) &&
     bool_decide (Dependency.conflicts dependency = [])
  then Some (result ++ ["Requires: " +:+ fullname +:+ String LF ""])
  else
    let result :=
      foldl (λ result require,
               result ++ ["Requires: " +:+ fullname +:+ " " +:+
                          require.1 +:+ " " +:+ require.2 +:+
                          String LF ""])
            result (Dependency.requires dependency) in
    Some (foldl (λ result conflict,
                   result ++ ["Conflicts: " +:+ fullname +:+ " == " +:+
                              conflict.2 +:+ String LF ""])
                result (Dependency.conflicts dependency)).

(** The body of [for line in lines]. *)
Definition patch_line (self : t) (package : Package.t)
    (result : list string) (line : string) : option (list string) :=
  if Str.contains "%define name" line then
    Some (result ++ ["%define name " +:+ prefix self +:+
                     Package.package package +:+ String LF ""])
  else if Str.contains "%description" line then
    result ← for_each (declare self) result (Package.own_deps package);
    Some (result ++ [line])
  else if Str.contains "%setup" line then
    Some (result ++ ["%setup -n %{original_name}-%{unmangled_version}"])
  else if Str.contains "Source0:" line then
    Some (result ++ ["Source0: " +:+
                     Str.basename (Package.archive package) +:+
                     String LF ""])
  else Some (result ++ [line]).

Definition _patch_spec_data (self : t) (package : Package.t)
    (lines : list string) : option (list string) :=
  let result :=
    [ "%define __python " +:+ system_python self +:+ String LF "";
      "%define original_name " +:+ Package.package package +:+
        String LF "" ] in
  for_each (patch_line self package) result lines.

End patch.

(** How a fuelled call goes on: an exception or exhaustion ends the run. *)
Definition outcome_bind {A B} (o : outcome A) (f : A → outcome B)
    : outcome B :=
  match o with
  | Returned a => f a
  | Raised => Raised
  | OutOfFuel => OutOfFuel
  end.

Definition raise_none {A} (o : option A) : outcome A :=
  match o with
  | Some a => Returned a
  | None => Raised
  end.

Section environment.

(** What the virtual environment answers: the text that [pip show name]
    prints, and the report of [pipdeptree --json] once loaded; [None] when
    the command, or the loading, raises. *)
Variable pip_show : string → option string.
Variable pipdeptree : option (list Report.entry).

Definition _collect_package_metadata (fuel : nat) (package : Package.t)
    : outcome Package.t :=
  outcome_bind (raise_none (pip_show (Package.package package))) (λ output,
  outcome_bind (raise_none (search_group1 "Name: " output)) (λ name,
  outcome_bind (raise_none (search_group1 "Version: " output)) (λ version,
  outcome_bind (raise_none pipdeptree) (λ deps,
    _parse_deps_tree fuel
      (Package.mk name version (Package.archive package)
                  (Package.sources package) (Package.own_deps package)
                  (Package.all_deps package))
      deps)))).

(** One file of a release in the registry's JSON. *)
Record release_file := mk_file {
  packagetype : string;
  url : string;
  filename : string
}.

(** [self.sources] and [self.temp]. *)
Variable sources temp : string.

(** What the registry and the file system answer: the files of
    [data['releases'][version]] for a name, the download of a URL into a
    file, and the unpacking of an archive into a directory; [None] when
    the step raises. *)
Variable releases : string → string → option (list release_file).
Variable save : string → string → option unit.
Variable unpack_archive : string → string → option unit.

Definition _download_package_sources (package : Package.t)
    : option Package.t :=
  output ← pip_show (Package.package package);
  name ← search_group1 "Name: " output;
  version ← search_group1 "Version: " output;
  data ← releases name version;
  meta ← head (filter (λ d, packagetype d = "sdist") data);
  let target := Str.join sources (filename meta) in
  _ ← save (url meta) target;
  _ ← unpack_archive (Str.join sources target) temp;
  Some (Package.mk name version target
          (Str.join temp (name +:+ "-" +:+ version))
          (Package.own_deps package) (Package.all_deps package)).

End environment.

Section packetize.

(** The four methods that [packetize] calls, as far as it sees them: each
    returns, with the package as it has left it, or raises. *)
Variable install : Package.t → option unit.
Variable collect download : Package.t → option Package.t.
Variable build : Package.t → option unit.

(** [re.search(pattern, name, re.IGNORECASE)], as a truth value; [None]
    when the pattern is not a regular expression and the search raises. *)
Variable re_search_ignorecase : string → string → option bool.

(** [sorted({(d.package, d.installed) for d in package.all_deps})]. *)
Definition installed_pairs (all_deps : list Dependency.t)
    : list (string * string) :=
  sorted_set ((λ d, (Dependency.package d, Dependency.installed d))
                <$> all_deps).

(** The body of [for depname, version in installed], on the list of the
    packages whose descriptor has been built so far. *)
Definition packetize_dependent (exclude : string) (built : list Package.t)
    (pair : string * string) : option (list Package.t) :=
  let '(depname, version) := pair in
  skip ← (if bool_decide (exclude = "") then Some false
          else re_search_ignorecase exclude depname);
  if skip : bool then Some built
  else
    let dependent := Package.new depname version in
    dependent ← collect dependent;
    dependent ← download dependent;
    _ ← build dependent;
    Some (built ++ [dependent]).

(** [packetize], returning the packages whose descriptor it has built, in
    the order of building. *)
Definition packetize (package verexpr : string) (recursive : bool)
    (exclude : string) : option (list Package.t) :=
  let package := Package.new package verexpr in
  _ ← install package;
  package ← collect package;
  package ← download package;
  _ ← build package;
  if recursive then
    for_each (packetize_dependent exclude) [package]
      (installed_pairs (Package.all_deps package))
  else Some [package].

End packetize.

End Packetizer.

(** ** The walk in any order, and the graph it follows *)

Section graph.

Context (deps : list Report.entry).

(** What the report lists under [name], in the order the walk queues it. *)
Definition listed (name : string) : list Report.dep :=
  Packetizer.extend_matching deps name [].

(** A run of the walk that may remove any pending item, not only the
    last: [Walk queue l] when such a run empties [queue] and collects the
    items of [l], in this order. *)
Inductive Walk : list Report.dep → list Report.dep → Prop :=
  | Walk_done : Walk [] []
  | Walk_step q1 x q2 l :
      Walk (q1 ++ q2 ++ listed (Report.package_name x)) l →
      Walk (q1 ++ x :: q2) (x :: l).

(** One round of such a run: some pending item leaves the queue and what
    the report lists under its name joins it. *)
Inductive round : relation (list Report.dep) :=
  | round_remove q1 x q2 :
      round (q1 ++ x :: q2) (q1 ++ q2 ++ listed (Report.package_name x)).

(** The same walk removing the first pending item, a queue discipline. *)
Fixpoint flatify_first (fuel : nat) (all_deps queue : list Report.dep)
    : option (list Report.dep) :=
  match queue with
  | [] => Some all_deps
  | next_entry :: queue =>
      match fuel with
      | 0 => None
      | S fuel =>
          flatify_first fuel (all_deps ++ [next_entry])
            (queue ++ listed (Report.package_name next_entry))
      end
  end.

(** The items under a queue, each followed by all that hangs below it. *)
Inductive Unfold : list Report.dep → list Report.dep → Prop :=
  | Unfold_nil : Unfold [] []
  | Unfold_cons x q lx lq :
      Unfold (listed (Report.package_name x)) lx →
      Unfold q lq →
      Unfold (x :: q) (x :: lx ++ lq).

(** [edge a b]: the report lists a dependency named [b] under [a]. *)
Definition edge (a b : string) : Prop :=
  ∃ d, d ∈ listed a ∧ Report.package_name d = b.

(** The names that have an entry: the only ones with outgoing edges. *)
Definition nodes : list string := Report.entry_package_name <$> deps.

(** A cycle can be reached from an item of the queue. *)
Definition cyclic_from (queue : list Report.dep) : Prop :=
  ∃ d n, d ∈ queue ∧ rtc edge (Report.package_name d) n ∧ tc edge n n.

(** Nothing reachable from the queue lies on a cycle. *)
Definition acyclic_from (queue : list Report.dep) : Prop :=
  ∀ d n, d ∈ queue → rtc edge (Report.package_name d) n → ¬ tc edge n n.

(** What the walk can come to from a queue: its items, and whatever the
    report lists under the name of an item it can come to. *)
Inductive Reachable (queue : list Report.dep) : Report.dep → Prop :=
  | Reachable_queued x : x ∈ queue → Reachable queue x
  | Reachable_listed y x :
      Reachable queue y → x ∈ listed (Report.package_name y) →
      Reachable queue x.

End graph.

(** [x < y], as [sorted] asks it. *)
Definition cmp_lt `{Cmp A} (x y : A) : Prop := cmp x y = Lt.

(** ** The behaviour the specification describes *)

(** The split of one comma-part in the words of the specification: the
    leading run of operator characters, and all that follows it. *)
Definition split_op_version (part : string) : string * string :=
  Str.span Dependency.op_char part.

(** The constraint parser in the words of the specification: nothing for
    the empty string; otherwise the comma-parts, each split, with the [!=]
    ones as conflicts and the others as requires, in their order. *)
Definition constraint_buckets (requirement : string)
    : list (string * string) * list (string * string) :=
  if decide (requirement = "") then ([], [])
  else
    let parts := split_op_version <$> Str.split ","%char requirement in
    (filter (λ p, p.1 ≠ "!=") parts, filter (λ p, p.1 = "!=") parts).

(** The comparison operators the specification knows. *)
Definition known_ops : list string := ["<"; ">"; "<="; ">="; "=="; "!="; ""].

(** The declaration lines of one dependency in the words of the
    specification, for a prefix and the looked-up name. *)
Definition declaration_lines (prefix depname : string) (d : Dependency.t)
    : list string :=
  let fullname := prefix +:+ depname in
  if decide (Dependency.requires d = [] ∧ Dependency.conflicts d = [])
  then ["Requires: " +:+ fullname +:+ String LF ""]
  else
    ((λ r, "Requires: " +:+ fullname +:+ " " +:+ r.1 +:+ " " +:+ r.2 +:+
           String LF "") <$> Dependency.requires d) ++
    ((λ c, "Conflicts: " +:+ fullname +:+ " == " +:+ c.2 +:+ String LF "")
       <$> Dependency.conflicts d).

(** ** Two small reports *)

(** Flask with two direct dependencies, one of which has one of its own. *)
Definition flask_report : list Report.entry :=
  [ Report.mk_entry "Flask"
      [ Report.mk_dep "Jinja2" "2.11.2" ">=2.10.1";
        Report.mk_dep "Werkzeug" "1.0.1" ">=0.15,!=0.16.0" ];
    Report.mk_entry "Jinja2" [ Report.mk_dep "MarkupSafe" "1.1.1" ">=0.23" ];
    Report.mk_entry "MarkupSafe" [];
    Report.mk_entry "Werkzeug" [] ].

Definition flask_rank (name : string) : nat :=
  if decide (name = "Flask") then 2
  else if decide (name = "Jinja2") then 1 else 0.

(** Two packages that list each other, below a third. *)
Definition loop_report : list Report.entry :=
  [ Report.mk_entry "app" [ Report.mk_dep "ping" "1.0" "" ];
    Report.mk_entry "ping" [ Report.mk_dep "pong" "1.0" "" ];
    Report.mk_entry "pong" [ Report.mk_dep "ping" "1.0" "" ] ].

(** ** A sample rewriting job *)

Definition mycompany : Packetizer.t :=
  Packetizer.mk "/usr/bin/python3" "mycompany-".

(** A package whose archive has been fetched, with one unconstrained
    dependency and one that carries a requirement and an exclusion. *)
Definition foo_package : Package.t :=
  Package.mk "foo" "1.2.3" "/sources/foo-1.2.3.tar.gz" "" 
    [ Dependency.mk "depname" "1.0" [] [];
      Dependency.mk "other" "2.1" [(">=", "1.9")] [("!=", "2.0")] ]
    [].

(** A metadata lookup that finds every package under the name asked for. *)
Definition same_name (name : string) : option string := Some name.

(** ** A sample environment *)

(** The installed packages of the Flask report, under the names pip
    reports; [flask] is asked for in lower case. *)
Definition flask_installed (name : string) : option (string * string) :=
  if decide (name = "flask" ∨ name = "Flask") then Some ("Flask", "1.1.2")
  else if decide (name = "Jinja2") then Some ("Jinja2", "2.11.2")
  else if decide (name = "MarkupSafe") then Some ("MarkupSafe", "1.1.1")
  else if decide (name = "Werkzeug") then Some ("Werkzeug", "1.0.1")
  else None.

Definition flask_pip_show (name : string) : option string :=
  '(name, version) ← flask_installed name;
  Some ("Name: " +:+ name +:+ String LF "" +:+
        "Version: " +:+ version +:+ String LF "" +:+
        "Summary: a package" +:+ String LF "").

(** A registry that offers a wheel and then a source archive for every
    release. *)
Definition flask_releases (name version : string)
    : option (list Packetizer.release_file) :=
  Some [ Packetizer.mk_file "bdist_wheel"
           ("https://files.example/" +:+ name +:+ ".whl")
           (name +:+ "-" +:+ version +:+ "-py2.py3-none-any.whl");
         Packetizer.mk_file "sdist"
           ("https://files.example/" +:+ name +:+ ".tar.gz")
           (name +:+ "-" +:+ version +:+ ".tar.gz") ].

(** Steps that always go through. *)
Definition goes_through {A B} (_ : A) (_ : B) : option unit := Some ().

Definition flask_collect (package : Package.t) : option Package.t :=
  match Packetizer._collect_package_metadata flask_pip_show
          (Some flask_report) 5 package with
  | Returned p => Some p
  | _ => None
  end.

Definition flask_download : Package.t → option Package.t :=
  Packetizer._download_package_sources flask_pip_show
    "/root/rpmbuild/SOURCES" "/root/rpmbuild/PYTHON/temp" flask_releases
    goes_through goes_through.

(** A search that finds a pattern of plain characters where it stands. *)
Definition plain_search (pattern name : string) : option bool :=
  Some (Str.contains pattern name).

(** * Properties *)

(** ** Lists and loops *)

Lemma pop_last_snoc {A} (q : list A) (x : A) : pop_last (q ++ [x]) = Some (q, x).
Proof.
  induction q as [|y q IH]; simpl; [done|]. by rewrite IH.
Qed.

Lemma pop_last_None {A} (l : list A) : pop_last l = None → l = [].
Proof.
  destruct l as [|x l]; [done|]. simpl. by destruct (pop_last l) as [[??]|].
Qed.

Lemma pop_last_Some {A} (l q : list A) (x : A) :
  pop_last l = Some (q, x) → l = q ++ [x].
Proof.
  revert q. induction l as [|y l IH]; intros q; simpl; [done|].
  destruct (pop_last l) as [[q' z]|] eqn:E.
  - intros [= <- <-]. simpl. f_equal. by apply IH.
  - intros [= <- <-]. by rewrite (pop_last_None l E).
Qed.

Lemma extend_matching_app deps name acc :
  Packetizer.extend_matching deps name acc = acc ++ listed deps name.
Proof.
  unfold listed, Packetizer.extend_matching.
  revert acc. induction deps as [|e deps IH]; intros acc; simpl.
  - by rewrite app_nil_r.
  - rewrite IH. rewrite (IH (if decide _ then _ else _)).
    case_decide; simpl; [by rewrite app_assoc | done].
Qed.

Lemma listed_cons e deps name :
  listed (e :: deps) name =
  (if decide (Report.entry_package_name e = name)
   then Report.dependencies e else []) ++ listed deps name.
Proof.
  unfold listed at 1. simpl. rewrite extend_matching_app.
  by case_decide.
Qed.

Lemma elem_of_listed deps name d :
  d ∈ listed deps name ↔
  ∃ e, e ∈ deps ∧ Report.entry_package_name e = name ∧
       d ∈ Report.dependencies e.
Proof.
  induction deps as [|e deps IH].
  - unfold listed. simpl. split; [by intros ?%elem_of_nil|].
    by intros (e & ?%elem_of_nil & _).
  - rewrite listed_cons, elem_of_app, IH. split.
    + intros [H|(e' & ? & ? & ?)].
      * case_decide; [|by apply elem_of_nil in H].
        exists e. split_and!; [left|done|done].
      * exists e'. split_and!; [by right|done|done].
    + intros (e' & [->|?]%elem_of_cons & Hn & Hd).
      * left. by rewrite decide_True.
      * right. by exists e'.
Qed.

Lemma for_each_app {A B} (f : B → A → option B) b l1 l2 :
  for_each f b (l1 ++ l2) = b' ← for_each f b l1; for_each f b' l2.
Proof.
  revert b. induction l1 as [|x l1 IH]; intros b; simpl; [done|].
  destruct (f b x); simpl; [apply IH|done].
Qed.

(** ** The walk and the unfolding *)

Section walk.

Context (deps : list Report.entry).

Local Abbreviation listed := (listed deps).
Local Abbreviation Walk := (Walk deps).
Local Abbreviation Unfold := (Unfold deps).

(** The loop is one of the runs of [Walk]. *)
Lemma flatify_Walk fuel all_deps queue r :
  Packetizer.flatify fuel deps all_deps queue = Some r →
  ∃ l, r = all_deps ++ l ∧ Walk queue l.
Proof.
  revert all_deps queue.
  induction fuel as [|fuel IH]; intros all_deps queue; simpl.
  - destruct (pop_last queue) as [[q x]|] eqn:E; [done|].
    intros [= <-]. apply pop_last_None in E as ->.
    exists []. split; [by rewrite app_nil_r | constructor].
  - destruct (pop_last queue) as [[q x]|] eqn:E.
    + apply pop_last_Some in E as ->.
      rewrite extend_matching_app.
      intros (l & -> & Hl)%IH. exists (x :: l). split.
      * by rewrite <- app_assoc.
      * apply (Walk_step deps q x []). by simpl.
    + intros [= <-]. apply pop_last_None in E as ->.
      exists []. split; [by rewrite app_nil_r | constructor].
Qed.

Lemma flatify_first_Walk fuel all_deps queue r :
  flatify_first deps fuel all_deps queue = Some r →
  ∃ l, r = all_deps ++ l ∧ Walk queue l.
Proof.
  revert all_deps queue.
  induction fuel as [|fuel IH]; intros all_deps [|x queue]; simpl;
    try done; try (intros [= <-]; exists []; split;
                    [by rewrite app_nil_r | constructor]).
  intros (l & -> & Hl)%IH. exists (x :: l). split.
  - by rewrite <- app_assoc.
  - by apply (Walk_step deps [] x queue).
Qed.

Lemma Unfold_det q l l' : Unfold q l → Unfold q l' → l = l'.
Proof.
  intros H. revert l'.
  induction H as [|x q lx lq _ IHx _ IHq]; intros l' H'; inv H'; [done|].
  f_equal. f_equal; auto.
Qed.

Lemma Unfold_app q1 q2 l :
  Unfold (q1 ++ q2) l ↔
  ∃ l1 l2, l = l1 ++ l2 ∧ Unfold q1 l1 ∧ Unfold q2 l2.
Proof.
  revert l. induction q1 as [|x q1 IH]; intros l; simpl.
  - split.
    + intros H. exists [], l. split_and!; [done|constructor|done].
    + intros (l1 & l2 & -> & H1 & H2). by inv H1.
  - split.
    + intros H. inversion H as [|? ? lx lq Hx Hq]; subst.
      apply IH in Hq as (l1 & l2 & -> & H1 & H2).
      eexists (x :: _ ++ l1), l2. split_and!; [|by constructor|done].
      simpl. by rewrite <- app_assoc.
    + intros (l1 & l2 & -> & H1 & H2). inv H1.
      simpl. rewrite <- app_assoc. constructor; [done|].
      apply IH. eauto.
Qed.

Lemma Unfold_singleton x l :
  Unfold [x] l ↔
  ∃ lx, l = x :: lx ∧ Unfold (listed (Report.package_name x)) lx.
Proof.
  split.
  - intros H. inversion H as [|? ? lx lq Hx Hq]; subst.
    inv Hq. eexists. by rewrite app_nil_r.
  - intros (lx & -> & H).
    rewrite <- (app_nil_r lx). constructor; [done|constructor].
Qed.

Lemma Unfold_length q l : Unfold q l → length q ≤ length l.
Proof.
  induction 1; simpl; [done|]. rewrite length_app. lia.
Qed.

(** Whatever the order of removal, the run collects the unfolding of its
    queue, up to order. *)
Lemma Walk_Unfold q l : Walk q l → ∃ c, Unfold q c ∧ l ≡ₚ c.
Proof.
  induction 1 as [|q1 x q2 l _ (c & Hc & Hp)].
  - exists []. split; [constructor|done].
  - apply Unfold_app in Hc as (c1 & c' & -> & H1 & Hc).
    apply Unfold_app in Hc as (c2 & cx & -> & H2 & Hx).
    exists (c1 ++ (x :: cx) ++ c2). split.
    + apply Unfold_app. exists c1, ((x :: cx) ++ c2). split_and!; try done.
      apply (Unfold_app [x] q2). exists (x :: cx), c2. split_and!; try done.
      apply Unfold_singleton. eauto.
    + rewrite Hp. simpl.
      rewrite <- Permutation_middle. constructor.
      apply Permutation_app_head, Permutation_app_comm.
Qed.

Lemma Walk_Permutation q l l' : Walk q l → Walk q l' → l ≡ₚ l'.
Proof.
  intros (c & Hc & Hp)%Walk_Unfold (c' & Hc' & Hp')%Walk_Unfold.
  rewrite Hp, Hp'. by rewrite (Unfold_det _ _ _ Hc Hc').
Qed.

(** Each round, whichever item it removes, uses up one item of the
    unfolding; so no run is longer than the unfolding, and any run that long
    has emptied the queue. *)
Lemma round_Unfold q q' c :
  Unfold q c → round deps q q' → ∃ c', Unfold q' c' ∧ length c = S (length c').
Proof.
  intros Hc Hround. destruct Hround as [q1 x q2].
  apply Unfold_app in Hc as (c1 & c' & -> & H1 & Hc).
  apply (Unfold_app [x] q2) in Hc as (cx & c2 & -> & Hx & H2).
  apply Unfold_singleton in Hx as (lx & -> & Hx).
  exists (c1 ++ c2 ++ lx). split.
  - apply Unfold_app. exists c1, (c2 ++ lx). split_and!; try done.
    apply Unfold_app. eauto.
  - rewrite !length_app. simpl. rewrite ?length_app. lia.
Qed.

Lemma rounds_Unfold n q q' c :
  Unfold q c → nsteps (round deps) n q q' →
  ∃ c', Unfold q' c' ∧ length c = n + length c'.
Proof.
  intros Hc Hn. revert c Hc.
  induction Hn as [q|n q q1 q' Hround _ IH]; intros c Hc; [by exists c|].
  destruct (round_Unfold _ _ _ Hc Hround) as (c1 & Hc1 & Hlen).
  destruct (IH _ Hc1) as (c' & Hc' & Hlen').
  exists c'. split; [done|lia].
Qed.

Lemma rounds_bounded n q q' c :
  Unfold q c → nsteps (round deps) n q q' →
  n ≤ length c ∧ (n = length c → q' = []).
Proof.
  intros Hc Hn. destruct (rounds_Unfold _ _ _ _ Hc Hn) as (c' & Hc' & Hlen).
  split; [lia|]. intros ->.
  apply Unfold_length in Hc'. destruct q'; [done|simpl in Hc'; lia].
Qed.

(** With an unfolding in hand the loop returns, in as many rounds as the
    unfolding has items. *)
Lemma Unfold_flatify q c all_deps :
  Unfold q c →
  ∃ l, Packetizer.flatify (length c) deps all_deps q = Some (all_deps ++ l).
Proof.
  remember (length c) as n eqn:Hn.
  revert q c all_deps Hn.
  induction n as [|n IH]; intros q c all_deps Hn Hc.
  - destruct c; [|done].
    apply Unfold_length in Hc. destruct q; [|simpl in Hc; lia].
    exists []. simpl. by rewrite app_nil_r.
  - destruct q as [|y q' _] using rev_ind.
    { exists []. simpl. by rewrite app_nil_r. }
    apply Unfold_app in Hc as (c1 & cy & -> & H1 & Hy).
    apply Unfold_singleton in Hy as (ly & -> & Hy).
    simpl. rewrite pop_last_snoc, extend_matching_app.
    destruct (IH (q' ++ listed (Report.package_name y)) (c1 ++ ly)
                (all_deps ++ [y])) as [l Hl].
    + rewrite length_app in Hn. simpl in Hn.
      rewrite length_app. lia.
    + apply Unfold_app. eauto.
    + exists (y :: l). rewrite Hl. by rewrite <- app_assoc.
Qed.

End walk.

(** ** Cycles and termination *)

Section cycles.

Context (deps : list Report.entry).

Local Abbreviation listed := (listed deps).
Local Abbreviation Unfold := (Unfold deps).
Local Abbreviation edge := (edge deps).
Local Abbreviation name := Report.package_name.
Local Abbreviation nodes := (nodes deps).

Lemma Unfold_elem q c d :
  Unfold q c → d ∈ q → ∃ cd, Unfold [d] cd ∧ length cd ≤ length c.
Proof.
  intros Hc (q1 & q2 & ->)%list_elem_of_split.
  apply Unfold_app in Hc as (c1 & c' & -> & _ & Hc).
  apply (Unfold_app deps [d] q2) in Hc as (cd & c2 & -> & Hd & _).
  exists cd. split; [done|]. rewrite !length_app. lia.
Qed.

Lemma Unfold_child x c y :
  Unfold [x] c → y ∈ listed (name x) →
  ∃ cy, Unfold [y] cy ∧ length cy < length c.
Proof.
  intros (lx & -> & Hx)%Unfold_singleton Hy.
  destruct (Unfold_elem _ _ _ Hx Hy) as (cy & ? & ?).
  exists cy. split; [done|]. simpl. lia.
Qed.

Lemma Unfold_Forall q :
  Forall (λ x, ∃ c, Unfold [x] c) q → ∃ c, Unfold q c.
Proof.
  induction 1 as [|x q [cx Hx] _ [cq Hq]].
  - exists []. constructor.
  - exists (cx ++ cq). apply (Unfold_app deps [x] q). eauto.
Qed.

(** An item whose name lies on a cycle has no unfolding: each step along
    the cycle would need a strictly shorter one. *)
Lemma cycle_no_Unfold n x c :
  length c ≤ n → Unfold [x] c → ¬ tc edge (name x) (name x).
Proof.
  revert x c. induction n as [|n IH]; intros x c Hn Hc Hcyc.
  - apply Unfold_length in Hc. simpl in Hc. lia.
  - assert (∃ y, edge (name x) y ∧ rtc edge y (name x))
      as (y & (d & Hd & <-) & Hback).
    { inv Hcyc; [eexists; split; [done|constructor]|].
      eexists; split; [done|]. by apply tc_rtc. }
    destruct (Unfold_child _ _ _ Hc Hd) as (cd & Hcd & Hlt).
    apply (IH d cd); [lia|done|].
    eapply tc_rtc_l; [done|]. apply tc_once. by exists d.
Qed.

Lemma reach_cycle_no_Unfold a n :
  rtc edge a n → tc edge n n →
  ∀ x c, name x = a → Unfold [x] c → False.
Proof.
  intros Hreach Hcyc.
  induction Hreach as [a|a b n (d & Hd & <-) _ IH]; intros x c <- Hc.
  - by eapply cycle_no_Unfold.
  - destruct (Unfold_child _ _ _ Hc Hd) as (cd & Hcd & _).
    by eapply IH.
Qed.

Lemma cyclic_no_Unfold q c : cyclic_from deps q → Unfold q c → False.
Proof.
  intros (d & n & Hd & Hreach & Hcyc) Hc.
  destruct (Unfold_elem _ _ _ Hc Hd) as (cd & Hcd & _).
  by eapply reach_cycle_no_Unfold.
Qed.

Lemma edge_node a b : edge a b → a ∈ nodes.
Proof.
  intros (d & (e & He & <- & _)%elem_of_listed & _).
  unfold nodes. apply list_elem_of_fmap. eauto.
Qed.

(** Below an item from which no cycle is reachable, the names on the way
    down never repeat, and there are only [length nodes] of them to use
    up. *)
Lemma acyclic_Unfold_item k path x :
  NoDup path →
  (∀ a, a ∈ path → a ∈ nodes) →
  length nodes ≤ k + length path →
  (∀ a, a ∈ path → tc edge a (name x)) →
  (∀ n, rtc edge (name x) n → ¬ tc edge n n) →
  ∃ c, Unfold [x] c.
Proof.
  revert path x.
  induction k as [|k IH]; intros path x Hnd Hin Hlen Hpath Hacyc.
  all: cut (∃ lx, Unfold (listed (name x)) lx);
    [intros [lx Hlx]; exists (x :: lx); apply Unfold_singleton; eauto|].
  all: apply Unfold_Forall, Forall_forall; intros y Hy.
  all: assert (edge (name x) (name y)) as Hedge by (by exists y).
  all: assert (name x ∉ path) as Hfresh
    by (intros Hx; by apply (Hacyc (name x)); [|apply Hpath]).
  all: assert (length (name x :: path) ≤ length nodes) as Hle
    by (apply submseteq_length, NoDup_submseteq;
        [by constructor|];
        intros a [->|?]%elem_of_cons; [by eapply edge_node|by apply Hin]).
  all: simpl in Hle.
  - lia.
  - apply (IH (name x :: path)).
    + by constructor.
    + intros a [->|?]%elem_of_cons; [by eapply edge_node|by apply Hin].
    + simpl. lia.
    + intros a [->|?]%elem_of_cons; [by apply tc_once|].
      eapply tc_r; [by apply Hpath|done].
    + intros n Hn. apply Hacyc. by eapply rtc_l.
Qed.

Lemma acyclic_Unfold q : acyclic_from deps q → ∃ c, Unfold q c.
Proof.
  intros Hacyc. apply Unfold_Forall, Forall_forall. intros x Hx.
  apply (acyclic_Unfold_item (length nodes) []).
  - constructor.
  - by intros a ?%elem_of_nil.
  - simpl. lia.
  - by intros a ?%elem_of_nil.
  - intros n. by apply Hacyc.
Qed.

End cycles.

(** ** The order of dependency records *)

Lemma cmp_refl `{CmpLaws A} (x : A) : cmp x x = Eq.
Proof. by apply cmp_eq. Qed.

(** One step of a lexicographic comparison is transitive when its head is. *)
Lemma cmp_lex_trans `{CmpLaws A} (a b c : A) (t1 t2 t3 : comparison) :
  (t1 = Lt → t2 = Lt → t3 = Lt) →
  cmp_lex (cmp a b) t1 = Lt → cmp_lex (cmp b c) t2 = Lt →
  cmp_lex (cmp a c) t3 = Lt.
Proof.
  intros Ht.
  destruct (cmp a b) eqn:E1, (cmp b c) eqn:E2; simpl; try done.
  - apply cmp_eq in E1 as ->. apply cmp_eq in E2 as ->.
    by rewrite cmp_refl.
  - apply cmp_eq in E1 as ->. by rewrite E2.
  - apply cmp_eq in E2 as <-. by rewrite E1.
  - by rewrite (cmp_lt_trans _ _ _ E1 E2).
Qed.

Lemma cmp_lex_opp (c1 c2 : comparison) :
  CompOpp (cmp_lex c1 c2) = cmp_lex (CompOpp c1) (CompOpp c2).
Proof. by destruct c1. Qed.

Lemma cmp_lex_Eq (c1 c2 : comparison) :
  cmp_lex c1 c2 = Eq ↔ c1 = Eq ∧ c2 = Eq.
Proof. destruct c1; simpl; split; try done; by intros [??]. Qed.

Global Instance ascii_cmp_laws : CmpLaws ascii.
Proof.
  split; unfold cmp, ascii_cmp.
  - intros x y. split; [apply Ascii.compare_eq_iff|].
    intros <-. apply N.compare_refl.
  - intros x y. apply Ascii.compare_antisym.
  - intros x y z. unfold Ascii.compare.
    rewrite !N.compare_lt_iff. apply N.lt_trans.
Qed.

Lemma string_cmp_String a s b t :
  cmp (String a s) (String b t) = cmp_lex (cmp a b) (cmp s t).
Proof.
  unfold cmp, string_cmp, ascii_cmp. simpl.
  by destruct (Ascii.compare a b).
Qed.

Global Instance string_cmp_laws : CmpLaws string.
Proof.
  split.
  - intros x y. split; [apply String.compare_eq_iff|].
    intros <-. induction x as [|a x IH]; [done|].
    rewrite string_cmp_String, cmp_refl. apply IH.
  - intros x y. apply String.compare_antisym.
  - intros x. induction x as [|a x IH]; intros [|b y] [|c z]; try done.
    rewrite !string_cmp_String. apply cmp_lex_trans. apply IH.
Qed.

Global Instance prod_cmp_laws `{CmpLaws A, CmpLaws B} : CmpLaws (A * B).
Proof.
  split; unfold cmp, prod_cmp.
  - intros [a b] [a' b']. simpl.
    rewrite cmp_lex_Eq, !cmp_eq.
    split; [by intros [-> ->]|by intros [= -> ->]].
  - intros [a b] [a' b']. simpl.
    by rewrite cmp_lex_opp, <- (cmp_opp a a'), <- (cmp_opp b b').
  - intros [a b] [a' b'] [a'' b'']. simpl.
    apply cmp_lex_trans. apply cmp_lt_trans.
Qed.

Lemma list_cmp_cons `{Cmp A} (x y : A) l k :
  cmp (x :: l) (y :: k) = cmp_lex (cmp x y) (cmp l k).
Proof. done. Qed.

Global Instance list_cmp_laws `{CmpLaws A} : CmpLaws (list A).
Proof.
  split.
  - intros l. induction l as [|x l IH]; intros [|y k]; try done.
    rewrite list_cmp_cons, cmp_lex_Eq, cmp_eq, IH.
    split; [by intros [-> ->]|by intros [= -> ->]].
  - intros l. induction l as [|x l IH]; intros [|y k]; try done.
    by rewrite !list_cmp_cons, cmp_lex_opp, <- (cmp_opp x y), <- (IH k).
  - intros l. induction l as [|x l IH]; intros [|y k] [|z m]; try done.
    rewrite !list_cmp_cons. apply cmp_lex_trans. apply IH.
Qed.

Lemma astuple_inj d e : Dependency.astuple d = Dependency.astuple e → d = e.
Proof. destruct d, e. unfold Dependency.astuple. simpl. congruence. Qed.

Global Instance dependency_cmp_laws : CmpLaws Dependency.t.
Proof.
  split; unfold cmp, Dependency.t_cmp.
  - intros d e. rewrite cmp_eq. split; [apply astuple_inj|by intros ->].
  - intros d e. apply cmp_opp.
  - intros d e f. apply cmp_lt_trans.
Qed.

Section cmp_le.

Context `{CmpLaws A}.

Global Instance cmp_le_trans : Transitive (cmp_le (A:=A)).
Proof.
  unfold cmp_le. intros x y z Hxy Hyz Hzx.
  destruct (cmp y x) eqn:E; [|done|].
  - apply cmp_eq in E as ->. done.
  - rewrite cmp_opp in E. destruct (cmp x y) eqn:E'; try done.
    by rewrite (cmp_lt_trans _ _ _ Hzx E') in Hyz.
Qed.

Global Instance cmp_le_antisym : AntiSymm (=) (cmp_le (A:=A)).
Proof.
  unfold cmp_le. intros x y Hxy Hyx.
  destruct (cmp x y) eqn:E; [by apply cmp_eq|done|].
  rewrite cmp_opp, E in Hxy. done.
Qed.

Global Instance cmp_le_total : Total (cmp_le (A:=A)).
Proof.
  unfold cmp_le. intros x y.
  destruct (cmp y x) eqn:E; [by left|right|by left].
  by rewrite cmp_opp, E.
Qed.

Context `{!EqDecision A}.

Lemma sorted_set_elem (l : list A) x : x ∈ sorted_set l ↔ x ∈ l.
Proof.
  unfold sorted_set. by rewrite merge_sort_Permutation, elem_of_remove_dups.
Qed.

Lemma sorted_set_Sorted (l : list A) : Sorted cmp_le (sorted_set l).
Proof. apply Sorted_merge_sort, _. Qed.

Lemma sorted_set_NoDup (l : list A) : NoDup (sorted_set l).
Proof.
  unfold sorted_set. rewrite merge_sort_Permutation. apply NoDup_remove_dups.
Qed.

(** The result is fixed by which records occur, not by how often or in
    which order the set hands them out. *)
Lemma sorted_set_elems (l k : list A) :
  (∀ x, x ∈ l ↔ x ∈ k) → sorted_set l = sorted_set k.
Proof.
  intros Hlk. apply (Sorted_unique cmp_le); try apply sorted_set_Sorted.
  apply NoDup_Permutation; try apply sorted_set_NoDup.
  intros x. by rewrite !sorted_set_elem.
Qed.

End cmp_le.

Lemma mapM_elem {A B} (f : A → option B) l k y :
  mapM f l = Some k → y ∈ k ↔ ∃ x, x ∈ l ∧ f x = Some y.
Proof.
  intros Hk%mapM_Some. induction Hk as [|x z l k Hx _ IH].
  - split; [by intros ?%elem_of_nil|by intros (? & ?%elem_of_nil & _)].
  - rewrite elem_of_cons, IH. split.
    + intros [->|(x' & ? & ?)]; [exists x|exists x']; split; try done;
        [left|by right].
    + intros (x' & [->|?]%elem_of_cons & Hy); [left; congruence|right; eauto].
Qed.

Lemma mapM_Permutation {A B} (f : A → option B) l l' k :
  l ≡ₚ l' → mapM f l = Some k → ∃ k', mapM f l' = Some k' ∧ k ≡ₚ k'.
Proof.
  intros Hp. revert k.
  induction Hp as [|x l l' _ IH|x y l|l l' l'' _ IH1 _ IH2]; intros k; simpl.
  - intros [= <-]. by exists [].
  - destruct (f x) as [z|]; simpl; [|done].
    destruct (mapM f l) as [k0|]; simpl; [|done]. intros [= <-].
    destruct (IH k0 eq_refl) as (k' & -> & ?). simpl.
    exists (z :: k'). split; [done|by constructor].
  - destruct (f y) as [z|]; simpl; [|done].
    destruct (f x) as [w|]; simpl; [|done].
    destruct (mapM f l) as [k0|]; simpl; [|done]. intros [= <-].
    exists (w :: z :: k0). split; [done|constructor].
  - intros (k' & Hk' & ?)%IH1. apply IH2 in Hk' as (k'' & ? & ?).
    exists k''. split; [done|by etrans].
Qed.

(** ** The resolver *)

Section resolver.

Context (deps : list Report.entry).

Local Abbreviation listed := (listed deps).
Local Abbreviation Walk := (Walk deps).
Local Abbreviation Unfold := (Unfold deps).
Local Abbreviation edge := (edge deps).
Local Abbreviation name := Report.package_name.

Lemma flatify_fuel_mono fuel fuel' all_deps queue r :
  fuel ≤ fuel' →
  Packetizer.flatify fuel deps all_deps queue = Some r →
  Packetizer.flatify fuel' deps all_deps queue = Some r.
Proof.
  revert fuel' all_deps queue.
  induction fuel as [|fuel IH]; intros [|fuel'] all_deps queue Hle; simpl;
    destruct (pop_last queue) as [[q x]|]; try done; try lia.
  apply IH. lia.
Qed.

Lemma Unfold_incl q c x : Unfold q c → x ∈ q → x ∈ c.
Proof.
  intros Hc Hx. destruct (Unfold_elem _ _ _ _ Hc Hx) as (cx & Hcx & _).
  apply list_elem_of_split in Hx as (q1 & q2 & ->).
  apply Unfold_app in Hc as (c1 & c' & -> & _ & Hc).
  apply (Unfold_app deps [x] q2) in Hc as (cd & c2 & -> & Hd & _).
  apply Unfold_singleton in Hd as (lx & -> & _).
  rewrite !elem_of_app, elem_of_cons. auto.
Qed.

(** Every queued item is collected by the time the queue is empty. *)
Lemma Walk_incl q l x : Walk q l → x ∈ q → x ∈ l.
Proof.
  intros (c & Hc & ->)%Walk_Unfold. by apply Unfold_incl.
Qed.

Lemma listed_absent target :
  (∀ e, e ∈ deps → Report.entry_package_name e ≠ target) →
  listed target = [].
Proof.
  intros Habs. destruct (listed target) as [|d l] eqn:E; [done|].
  assert (d ∈ listed target) as (e & He & Hn & _)%elem_of_listed
    by (rewrite E; left).
  by destruct (Habs e He).
Qed.

(** The loop returns exactly when its queue has an unfolding. *)
Lemma flatify_returns_iff all_deps queue :
  (∃ fuel r, Packetizer.flatify fuel deps all_deps queue = Some r) ↔
  ∃ c, Unfold queue c.
Proof.
  split.
  - intros (fuel & r & (l & _ & (c & Hc & _)%Walk_Unfold)%flatify_Walk).
    eauto.
  - intros (c & Hc).
    destruct (Unfold_flatify deps _ _ all_deps Hc) as [l Hl]. eauto.
Qed.

Lemma flatify_acyclic all_deps queue :
  acyclic_from deps queue →
  ∃ fuel r, Packetizer.flatify fuel deps all_deps queue = Some r.
Proof.
  intros Hacyc. apply flatify_returns_iff. by apply acyclic_Unfold.
Qed.

Lemma flatify_cyclic fuel all_deps queue :
  cyclic_from deps queue →
  Packetizer.flatify fuel deps all_deps queue = None.
Proof.
  intros Hcyc.
  destruct (Packetizer.flatify _ _ _ _) as [r|] eqn:Hr; [|done].
  assert (∃ c, Unfold queue c) as [c Hc]
    by (apply (flatify_returns_iff all_deps); eauto).
  by destruct (cyclic_no_Unfold deps _ _ Hcyc Hc).
Qed.

Lemma acyclic_iff_not_cyclic queue :
  acyclic_from deps queue ↔ ¬ cyclic_from deps queue.
Proof.
  unfold acyclic_from, cyclic_from. split.
  - intros Ha (d & n & Hd & Hr & Hc). by eapply Ha.
  - intros Hn d n Hd Hr Hc. apply Hn. eauto.
Qed.

(** A rank that drops along every listed dependency rules cycles out. *)
Lemma ranked_acyclic (rank : string → nat) queue :
  Forall (λ e, Forall (λ d, rank (name d) <
                            rank (Report.entry_package_name e))
                      (Report.dependencies e)) deps →
  acyclic_from deps queue.
Proof.
  intros Hrank d n _ _ Hcyc.
  assert (∀ a b, tc edge a b → rank b < rank a) as Htc.
  { induction 1 as [a b Hab|a b c Hab _ IH].
    all: destruct Hab as (y & (e & He & <- & Hy)%elem_of_listed & <-).
    all: rewrite Forall_forall in Hrank; specialize (Hrank e He).
    all: rewrite Forall_forall in Hrank; specialize (Hrank y Hy); lia. }
  apply Htc in Hcyc. lia.
Qed.

End resolver.

(** C1. Whenever the resolver returns, every record of [own_deps] is also a
    record of [all_deps], both as stored after deduplication and sorting. *)
Theorem own_deps_subset_all_deps fuel package deps p :
  Packetizer._parse_deps_tree fuel package deps = Returned p →
  ∀ d, d ∈ Package.own_deps p → d ∈ Package.all_deps p.
Proof.
  unfold Packetizer._parse_deps_tree.
  destruct (Packetizer.flatify _ _ _ _) as [all_deps|] eqn:Hwalk; [|done].
  destruct (mapM _ (Packetizer.extend_matching _ _ _)) as [own|] eqn:Hown;
    [|done].
  destruct (mapM _ all_deps) as [all|] eqn:Hall; [|done].
  intros [= <-] d. simpl. rewrite !sorted_set_elem.
  rewrite (mapM_elem _ _ _ _ Hown), (mapM_elem _ _ _ _ Hall).
  intros (x & Hx & Hd). exists x. split; [|done].
  apply flatify_Walk in Hwalk as (l & -> & Hl). simpl.
  by eapply Walk_incl.
Qed.

Lemma own_deps_subset_all_deps_witness :
  ∃ p, Packetizer._parse_deps_tree 5 (Package.new "Flask" "") flask_report
       = Returned p ∧
       length (Package.own_deps p) = 2 ∧ length (Package.all_deps p) = 3 ∧
       ∀ d, d ∈ Package.own_deps p → d ∈ Package.all_deps p.
Proof.
  eexists. split; [vm_compute; reflexivity|].
  split; [reflexivity|]. split; [reflexivity|].
  apply (own_deps_subset_all_deps 5 (Package.new "Flask" "") flask_report).
  vm_compute. reflexivity.
Defined.

(** C7. When no entry of the report is named like the target, the resolver
    returns, whatever the fuel, with both dependency lists empty. *)
Theorem absent_target_empty fuel package deps :
  (∀ e, e ∈ deps → Report.entry_package_name e ≠ Package.package package) →
  Packetizer._parse_deps_tree fuel package deps
  = Returned (Package.set_deps package [] []).
Proof.
  intros Habs. unfold Packetizer._parse_deps_tree.
  rewrite extend_matching_app, (listed_absent _ _ Habs). simpl.
  by destruct fuel.
Qed.

Lemma absent_target_empty_witness :
  (∀ e, e ∈ flask_report → Report.entry_package_name e ≠ "requests") ∧
  Packetizer._parse_deps_tree 0 (Package.new "requests" "==2.25.1")
    flask_report
  = Returned (Package.new "requests" "==2.25.1").
Proof.
  assert (∀ e, e ∈ flask_report → Report.entry_package_name e ≠ "requests")
    as Habs by (apply Forall_forall; repeat constructor; done).
  split; [exact Habs|].
  exact (absent_target_empty 0 (Package.new "requests" "==2.25.1")
           flask_report Habs).
Defined.

(** C4. On a report where no cycle can be reached from the target's direct
    dependencies the walk returns, given enough fuel; on a report where one
    can, it runs out of any amount of fuel: the loop has no guard against
    cycles. *)
Theorem walk_terminates_iff_no_cycle package deps :
  (acyclic_from deps
     (Packetizer.extend_matching deps (Package.package package) []) →
   ∃ fuel all_deps,
     Packetizer.flatify fuel deps []
       (Packetizer.extend_matching deps (Package.package package) [])
     = Some all_deps) ∧
  (cyclic_from deps
     (Packetizer.extend_matching deps (Package.package package) []) →
   ∀ fuel,
     Packetizer.flatify fuel deps []
       (Packetizer.extend_matching deps (Package.package package) [])
     = None).
Proof.
  split; [apply flatify_acyclic|].
  intros Hcyc fuel. by apply flatify_cyclic.
Qed.

Lemma walk_terminates_iff_no_cycle_witness :
  (∃ fuel all_deps,
     Packetizer.flatify fuel flask_report []
       (Packetizer.extend_matching flask_report "Flask" [])
     = Some all_deps) ∧
  (∀ fuel,
     Packetizer.flatify fuel loop_report []
       (Packetizer.extend_matching loop_report "app" [])
     = None).
Proof.
  split.
  - apply (walk_terminates_iff_no_cycle (Package.new "Flask" "") flask_report).
    apply (ranked_acyclic _ flask_rank).
    repeat constructor.
  - apply (walk_terminates_iff_no_cycle (Package.new "app" "") loop_report).
    exists (Report.mk_dep "ping" "1.0" ""), "ping". split_and!.
    + left.
    + constructor.
    + apply tc_l with "pong"; [|apply tc_once].
      * exists (Report.mk_dep "pong" "1.0" ""). split; [left|done].
      * exists (Report.mk_dep "ping" "1.0" ""). split; [left|done].
Defined.

(** The resolver as a whole: out of fuel exactly as the walk is. *)
Lemma _parse_deps_tree_cyclic fuel package deps :
  cyclic_from deps (listed deps (Package.package package)) →
  Packetizer._parse_deps_tree fuel package deps = OutOfFuel.
Proof.
  intros Hcyc. unfold Packetizer._parse_deps_tree. unfold listed in Hcyc.
  by rewrite (flatify_cyclic deps fuel [] _ Hcyc).
Qed.

Lemma _parse_deps_tree_acyclic package deps :
  acyclic_from deps (listed deps (Package.package package)) →
  ∃ fuel, ∀ fuel', fuel ≤ fuel' →
    Packetizer._parse_deps_tree fuel' package deps ≠ OutOfFuel.
Proof.
  intros (fuel & r & Hr)%(flatify_acyclic deps []).
  exists fuel. intros fuel' Hle. unfold Packetizer._parse_deps_tree.
  unfold listed in Hr. rewrite (flatify_fuel_mono _ _ _ _ _ _ Hle Hr).
  by repeat case_match.
Qed.

(** The final list of a walk: parse what was collected, deduplicate, sort. *)
Lemma collected_Permutation (l l' : list Report.dep) :
  l ≡ₚ l' →
  sorted_set <$> mapM Dependency.parse l
  = sorted_set <$> mapM Dependency.parse l'.
Proof.
  intros Hp.
  destruct (mapM Dependency.parse l) as [k|] eqn:Hk.
  - destruct (mapM_Permutation _ _ _ _ Hp Hk) as (k' & -> & Hkk'). simpl.
    f_equal. apply sorted_set_elems. intros x. by rewrite Hkk'.
  - destruct (mapM Dependency.parse l') as [k'|] eqn:Hk'; [|done].
    symmetry in Hp.
    destruct (mapM_Permutation _ _ _ _ Hp Hk') as (k & Hk2 & _). congruence.
Qed.

(** C5. Let the resolver return on a report.  Then any run of the walk on
    that report, whichever pending item it removes at each round, collects
    a list that parses, deduplicates and sorts to the very [all_deps] the
    resolver stored. *)
Theorem removal_order_irrelevant fuel package deps p l :
  Packetizer._parse_deps_tree fuel package deps = Returned p →
  Walk deps (Packetizer.extend_matching deps (Package.package package) []) l →
  sorted_set <$> mapM Dependency.parse l = Some (Package.all_deps p).
Proof.
  unfold Packetizer._parse_deps_tree.
  destruct (Packetizer.flatify _ _ _ _) as [all_deps|] eqn:Hwalk; [|done].
  destruct (mapM _ (Packetizer.extend_matching _ _ _)) as [own|]; [|done].
  destruct (mapM _ all_deps) as [all|] eqn:Hall; [|done].
  intros [= <-] Hl. simpl.
  apply flatify_Walk in Hwalk as (l0 & -> & Hl0). simpl in Hall.
  rewrite (collected_Permutation l l0) by by eapply Walk_Permutation.
  by rewrite Hall.
Qed.

Lemma removal_order_irrelevant_witness :
  ∃ p l,
    Packetizer._parse_deps_tree 5 (Package.new "Flask" "") flask_report
    = Returned p ∧
    Walk flask_report (Packetizer.extend_matching flask_report "Flask" []) l ∧
    Report.package_name <$> l = ["Jinja2"; "Werkzeug"; "MarkupSafe"] ∧
    sorted_set <$> mapM Dependency.parse l = Some (Package.all_deps p).
Proof.
  eexists.
  exists [ Report.mk_dep "Jinja2" "2.11.2" ">=2.10.1";
           Report.mk_dep "Werkzeug" "1.0.1" ">=0.15,!=0.16.0";
           Report.mk_dep "MarkupSafe" "1.1.1" ">=0.23" ].
  assert (Walk flask_report
            (Packetizer.extend_matching flask_report "Flask" [])
            [ Report.mk_dep "Jinja2" "2.11.2" ">=2.10.1";
              Report.mk_dep "Werkzeug" "1.0.1" ">=0.15,!=0.16.0";
              Report.mk_dep "MarkupSafe" "1.1.1" ">=0.23" ]) as Hwalk.
  { apply (Walk_step flask_report [] _ [_]).
    apply (Walk_step flask_report [] _ [_]).
    apply (Walk_step flask_report [] _ []).
    apply Walk_done. }
  split; [vm_compute; reflexivity|].
  split; [exact Hwalk|]. split; [reflexivity|].
  apply (removal_order_irrelevant 5 (Package.new "Flask" "") flask_report);
    [vm_compute; reflexivity|exact Hwalk].
Defined.

(** The queue discipline of the specification, removing the first pending
    item, is one such run, and returns whenever the stack discipline of the
    code does. *)
Lemma Unfold_flatify_first deps q c all_deps :
  Unfold deps q c →
  ∃ l, flatify_first deps (length c) all_deps q = Some (all_deps ++ l).
Proof.
  remember (length c) as n eqn:Hn.
  revert q c all_deps Hn.
  induction n as [|n IH]; intros q c all_deps Hn Hc.
  - destruct c; [|done].
    apply Unfold_length in Hc. destruct q; [|simpl in Hc; lia].
    exists []. simpl. by rewrite app_nil_r.
  - inversion Hc as [|x q' lx lq Hx Hq]; subst.
    { exists []. simpl. by rewrite app_nil_r. }
    simpl.
    destruct (IH (q' ++ listed deps (Report.package_name x)) (lq ++ lx)
                (all_deps ++ [x])) as [l Hl].
    + simpl in Hn. rewrite length_app in *. lia.
    + apply Unfold_app. eauto.
    + exists (x :: l). rewrite Hl. by rewrite <- app_assoc.
Qed.

Lemma flatify_first_agrees fuel deps queue all_deps :
  Packetizer.flatify fuel deps [] queue = Some all_deps →
  ∃ fuel' all_deps',
    flatify_first deps fuel' [] queue = Some all_deps' ∧
    sorted_set <$> mapM Dependency.parse all_deps'
    = sorted_set <$> mapM Dependency.parse all_deps.
Proof.
  intros Hwalk.
  destruct (flatify_Walk _ _ _ _ _ Hwalk) as (l & -> & Hl).
  destruct (Walk_Unfold _ _ _ Hl) as (c & Hc & _).
  destruct (Unfold_flatify_first _ _ _ [] Hc) as (l' & Hl').
  exists (length c), l'. split; [done|].
  apply flatify_first_Walk in Hl' as (l'' & Heq & Hl'').
  simpl in Heq. subst l''.
  apply collected_Permutation. by eapply Walk_Permutation.
Qed.

(** ** The constraint parser *)

Lemma span_no_char p c s :
  Str.has_char c s = false → Str.has_char c (Str.span p s).2 = false.
Proof.
  induction s as [|a s IH]; simpl; [done|].
  intros [Ha Hs]%orb_false_iff.
  destruct (p a); [|simpl; by rewrite Ha, Hs].
  specialize (IH Hs). by destruct (Str.span p s).
Qed.

Lemma span_not_LF s :
  Str.has_char LF s = false → Str.span Dependency.not_LF s = (s, EmptyString).
Proof.
  induction s as [|a s IH]; simpl; [done|].
  intros [Ha Hs]%orb_false_iff.
  unfold Dependency.not_LF at 1. rewrite Ha. simpl. by rewrite (IH Hs).
Qed.

Lemma search_groups_no_LF part :
  Str.has_char LF part = false →
  Dependency.search_groups part = Some (split_op_version part).
Proof.
  intros Hpart. unfold Dependency.search_groups, split_op_version.
  pose proof (span_no_char Dependency.op_char _ _ Hpart) as Hrest.
  destruct (Str.span Dependency.op_char part) as [op rest]. simpl in Hrest.
  by rewrite (span_not_LF _ Hrest).
Qed.

Lemma split_no_char sep c s :
  Str.has_char c s = false →
  Forall (λ part, Str.has_char c part = false) (Str.split sep s).
Proof.
  induction s as [|a s IH]; simpl; [by repeat constructor|].
  intros [Ha Hs]%orb_false_iff. specialize (IH Hs).
  destruct (Ascii.eqb a sep); [by constructor|].
  destruct (Str.split sep s) as [|p ps]; [repeat constructor; simpl|].
  - by rewrite Ha.
  - inv IH. constructor; [simpl|done]. by rewrite Ha.
Qed.

Lemma for_each_cons {A B} (f : B → A → option B) b x l :
  for_each f b (x :: l) = b' ← f b x; for_each f b' l.
Proof. done. Qed.

Lemma _requires_step_no_LF requires conflicts part :
  Str.has_char LF part = false →
  Dependency._requires_step (requires, conflicts) part
  = Some (if decide ((split_op_version part).1 ≠ "!=")
          then (requires ++ [split_op_version part], conflicts)
          else (requires, conflicts ++ [split_op_version part])).
Proof.
  intros Hpart. unfold Dependency._requires_step.
  rewrite (search_groups_no_LF _ Hpart).
  destruct (split_op_version part) as [op ver]. simpl.
  by case_decide.
Qed.

(** The loop, round by round: a part that the pattern matches lands at the
    end of its bucket. *)
Lemma _requires_loop parts requires conflicts :
  Forall (λ part, Str.has_char LF part = false) parts →
  for_each Dependency._requires_step (requires, conflicts) parts
  = Some (requires ++ filter (λ p, p.1 ≠ "!=") (split_op_version <$> parts),
          conflicts ++ filter (λ p, p.1 = "!=") (split_op_version <$> parts)).
Proof.
  intros Hparts. revert requires conflicts.
  induction Hparts as [|part parts Hpart _ IH]; intros requires conflicts.
  - simpl. by rewrite !app_nil_r.
  - rewrite for_each_cons, (_requires_step_no_LF _ _ _ Hpart).
    rewrite fmap_cons, !filter_cons. simpl.
    destruct (decide ((split_op_version part).1 ≠ "!=")) as [Hop|Hop].
    + rewrite IH, decide_False by done. by rewrite <- app_assoc.
    + rewrite IH, decide_True by by apply dec_stable.
      by rewrite <- app_assoc.
Qed.

(** C2, as amended. On every requirement string without a line feed the
    parser returns the two buckets that the specification describes; the
    empty string gives two empty buckets, and [>=1.0,!=1.5,<2.0] gives
    requires [>= 1.0] and [< 2.0] and conflicts [!= 1.5]. *)
Theorem _requires_buckets :
  (∀ requirement,
     Str.has_char LF requirement = false →
     Dependency._requires requirement
     = Some (constraint_buckets requirement)) ∧
  Dependency._requires "" = Some ([], []) ∧
  Dependency._requires ">=1.0,!=1.5,<2.0"
  = Some ([(">=", "1.0"); ("<", "2.0")], [("!=", "1.5")]).
Proof.
  split; [|done].
  intros requirement HLF.
  unfold Dependency._requires, constraint_buckets.
  case_decide; [done|].
  by rewrite _requires_loop by by apply split_no_char.
Qed.

Lemma _requires_buckets_witness :
  Str.has_char LF "==2.0,!=2.1,>1" = false ∧
  Dependency._requires "==2.0,!=2.1,>1"
  = Some ([("==", "2.0"); (">", "1")], [("!=", "2.1")]).
Proof.
  split; [reflexivity|].
  exact (proj1 _requires_buckets "==2.0,!=2.1,>1" eq_refl).
Defined.

(** C2 as stated fails: a part with a line feed inside is one the pattern
    does not match, and the parser raises instead of filling the buckets. *)
Lemma _requires_line_feed_raises :
  Dependency._requires ("1" +:+ String LF "2") = None ∧
  Dependency._requires ("1" +:+ String LF "2")
  ≠ Some (constraint_buckets ("1" +:+ String LF "2")).
Proof. split; [reflexivity|discriminate]. Qed.

Lemma span_all_chars p s : Str.all_chars p (Str.span p s).1 = true.
Proof.
  induction s as [|a s IH]; simpl; [done|].
  destruct (p a) eqn:Ha; [|done].
  destruct (Str.span p s). simpl in *. by rewrite Ha.
Qed.

Lemma search_groups_op part op ver :
  Dependency.search_groups part = Some (op, ver) →
  Str.all_chars Dependency.op_char op = true.
Proof.
  unfold Dependency.search_groups.
  pose proof (span_all_chars Dependency.op_char part) as Hop.
  destruct (Str.span Dependency.op_char part) as [op' rest].
  destruct (Str.span Dependency.not_LF rest) as [ver' tail].
  destruct tail as [|? [|??]]; intros [= <- <-] || done; done.
Qed.

Lemma _requires_step_inv requires conflicts part acc :
  Dependency._requires_step (requires, conflicts) part = Some acc →
  ∃ op ver, Str.all_chars Dependency.op_char op = true ∧
    (op ≠ "!=" ∧ acc = (requires ++ [(op, ver)], conflicts) ∨
     op = "!=" ∧ acc = (requires, conflicts ++ [(op, ver)])).
Proof.
  unfold Dependency._requires_step.
  destruct (Dependency.search_groups part) as [[op ver]|] eqn:E; [|done].
  apply search_groups_op in E. simpl.
  case_decide; intros [= <-]; exists op, ver; (split; [done|]).
  - by left.
  - right. split; [|done]. by destruct (decide (op = "!=")).
Qed.

Lemma for_each_requires_inv parts requires conflicts requires' conflicts' :
  for_each Dependency._requires_step (requires, conflicts) parts
  = Some (requires', conflicts') →
  ∃ rs cs, requires' = requires ++ rs ∧ conflicts' = conflicts ++ cs ∧
    Forall (λ p, Str.all_chars Dependency.op_char p.1 = true ∧ p.1 ≠ "!=") rs ∧
    Forall (λ p, p.1 = "!=") cs.
Proof.
  revert requires conflicts.
  induction parts as [|part parts IH]; intros requires conflicts.
  - intros [= <- <-]. exists [], []. by rewrite !app_nil_r.
  - rewrite for_each_cons.
    destruct (Dependency._requires_step _ part) as [acc|] eqn:Hstep; [|done].
    apply _requires_step_inv in Hstep
      as (op & ver & Hop & [[Hne ->]|[Heq ->]]); simpl.
    + intros (rs & cs & -> & -> & Hrs & Hcs)%IH.
      exists ((op, ver) :: rs), cs. rewrite <- app_assoc.
      split_and!; try done. by constructor.
    + intros (rs & cs & -> & -> & Hrs & Hcs)%IH.
      exists rs, ((op, ver) :: cs). rewrite <- app_assoc.
      split_and!; try done. by constructor.
Qed.

(** C6, as amended. Every operator the parser produces is a run, possibly
    empty, of the characters [<], [>], [!] and [=]; those among the
    conflicts are [!=] and those among the requires are not. *)
Theorem _requires_operators requirement requires conflicts :
  Dependency._requires requirement = Some (requires, conflicts) →
  (∀ p, p ∈ requires →
     Str.all_chars Dependency.op_char p.1 = true ∧ p.1 ≠ "!=") ∧
  (∀ p, p ∈ conflicts → p.1 = "!=").
Proof.
  unfold Dependency._requires. case_decide.
  - intros [= <- <-]. split; by intros p ?%elem_of_nil.
  - intros (rs & cs & -> & -> & Hrs & Hcs)%for_each_requires_inv. simpl.
    by rewrite <- !Forall_forall.
Qed.

Lemma _requires_operators_witness :
  Dependency._requires ">=1.0,!=1.5,<2.0"
  = Some ([(">=", "1.0"); ("<", "2.0")], [("!=", "1.5")]) ∧
  (∀ p, p ∈ [(">=", "1.0"); ("<", "2.0")] →
     Str.all_chars Dependency.op_char p.1 = true ∧ p.1 ≠ "!=") ∧
  (∀ p, p ∈ [("!=", "1.5")] → p.1 = "!=").
Proof.
  split; [reflexivity|].
  exact (_requires_operators ">=1.0,!=1.5,<2.0" _ _ eq_refl).
Defined.

(** C6 as stated fails: the run of operator characters is taken whole,
    whatever its length, so the arbitrary-equality clause [===1.0] parses
    to an operator that is not among the known ones. *)
Lemma _requires_unknown_operator :
  Dependency._requires "===1.0" = Some ([("===", "1.0")], []) ∧
  "===" ∉ known_ops.
Proof.
  split; [reflexivity|]. unfold known_ops.
  rewrite !elem_of_cons, elem_of_nil. intros H.
  repeat (destruct H as [H|H]; [discriminate H|]). done.
Qed.

(** ** The installation expression *)

(** C10. The expression handed to the installer is the name directly
    followed by the version when the version starts with [<], [>] or [=];
    the name, [==] and the version when the version starts with anything
    else; and the bare name when the version is empty. *)
Theorem expression_cases (self : Package.t) :
  (∀ c rest, Package.version self = String c rest →
     c ∈ ["<"; ">"; "="]%char →
     Package.expression self
     = Package.package self +:+ Package.version self) ∧
  (∀ c rest, Package.version self = String c rest →
     c ∉ ["<"; ">"; "="]%char →
     Package.expression self
     = Package.package self +:+ "==" +:+ Package.version self) ∧
  (Package.version self = "" →
     Package.expression self = Package.package self).
Proof.
  unfold Package.expression. split_and!.
  - intros c rest -> Hc. simpl. unfold Package.ver_op_char.
    rewrite !elem_of_cons, elem_of_nil in Hc.
    destruct Hc as [->|[->|[->|[]]]]; done.
  - intros c rest -> Hc. simpl.
    rewrite !elem_of_cons, elem_of_nil in Hc.
    unfold Package.ver_op_char.
    destruct (Ascii.eqb_spec c "<"); [naive_solver|].
    destruct (Ascii.eqb_spec c ">"); [naive_solver|].
    destruct (Ascii.eqb_spec c "="); [naive_solver|]. done.
  - by intros ->.
Qed.

Lemma expression_cases_witness :
  Package.expression (Package.new "requests" ">=2.0") = "requests>=2.0" ∧
  Package.expression (Package.new "requests" "2.25.1") = "requests==2.25.1" ∧
  Package.expression (Package.new "requests" "") = "requests".
Proof.
  split_and!.
  - apply (proj1 (expression_cases (Package.new "requests" ">=2.0"))
             ">"%char "=2.0" eq_refl).
    rewrite !elem_of_cons. auto.
  - apply (proj1 (proj2 (expression_cases (Package.new "requests" "2.25.1")))
             "2"%char ".25.1" eq_refl).
    rewrite !elem_of_cons, elem_of_nil. intros [H|[H|[H|[]]]]; discriminate H.
  - exact (proj2 (proj2 (expression_cases (Package.new "requests" "")))
             eq_refl).
Defined.

(** ** The rewriter *)

Lemma foldl_snoc {A B} (f : A → B) (result : list B) (l : list A) :
  foldl (λ result x, result ++ [f x]) result l = result ++ (f <$> l).
Proof.
  revert result. induction l as [|x l IH]; intros result; simpl.
  - by rewrite app_nil_r.
  - by rewrite IH, <- app_assoc.
Qed.

Lemma ends_with_app_r c s t :
  Str.ends_with c t = true → Str.ends_with c (s +:+ t) = true.
Proof.
  intros Ht. induction s as [|a s IH]; [done|].
  change (String a s +:+ t) with (String a (s +:+ t)). simpl.
  destruct (s +:+ t) eqn:E; [|done].
  by rewrite <- IH.
Qed.

(** Closes goals saying that a line built by appending ends in a line
    feed. *)
Ltac terminated := repeat apply ends_with_app_r; reflexivity.

Lemma basename_no_slash p : Str.has_char "/" (Str.basename p) = false.
Proof.
  induction p as [|c p IH]; simpl; [done|].
  destruct (Str.has_char "/" p) eqn:Hp; [done|].
  destruct (Ascii.eqb c "/") eqn:Hc; [done|]. simpl. by rewrite Hc, Hp.
Qed.

(** The base name is what is left of the path after a directory part that
    is empty or ends in a slash. *)
Lemma basename_suffix p :
  ∃ dir, p = dir +:+ Str.basename p ∧
         (dir = "" ∨ Str.ends_with "/" dir = true).
Proof.
  induction p as [|c p (dir & Hp & Hdir)]; simpl; [exists ""; auto|].
  destruct (Str.has_char "/" p) eqn:Hs.
  - exists (String c dir). split; [exact (f_equal (String c) Hp)|]. right.
    destruct Hdir as [->|Hdir].
    + assert (Str.has_char "/" p = false)
        by (rewrite Hp; apply basename_no_slash).
      congruence.
    + simpl. by destruct dir.
  - destruct (Ascii.eqb_spec c "/") as [->|Hc].
    + exists "/". auto.
    + exists "". auto.
Qed.

Section rewriter.

Context (collect_name : string → option string) (self : Packetizer.t)
        (package : Package.t).

Local Abbreviation declare := (Packetizer.declare collect_name self).
Local Abbreviation patch_line :=
  (Packetizer.patch_line collect_name self package).
Local Abbreviation _patch_spec_data :=
  (Packetizer._patch_spec_data collect_name self package).

Lemma declare_lines result dependency depname :
  collect_name (Dependency.package dependency) = Some depname →
  declare result dependency
  = Some (result ++
          declaration_lines (Packetizer.prefix self) depname dependency).
Proof.
  intros Hname. unfold Packetizer.declare, declaration_lines.
  rewrite Hname. cbn [mbind option_bind]. rewrite !foldl_snoc, <- app_assoc.
  case_decide as Hboth.
  - by destruct Hboth as [-> ->].
  - destruct (Dependency.requires dependency), (Dependency.conflicts dependency);
      try done.
    by destruct Hboth.
Qed.

Lemma declare_all result dependencies names :
  Forall2 (λ d n, collect_name (Dependency.package d) = Some n)
          dependencies names →
  for_each declare result dependencies
  = Some (result ++
          mjoin (zip_with (declaration_lines (Packetizer.prefix self))
                          names dependencies)).
Proof.
  intros Hnames. revert result.
  induction Hnames as [|d n ds ns Hn _ IH]; intros result.
  - simpl. by rewrite app_nil_r.
  - rewrite for_each_cons, (declare_lines _ _ _ Hn). simpl.
    by rewrite IH, <- app_assoc.
Qed.

(** The loop over the lines goes on from where it stood. *)
Lemma _patch_spec_data_snoc pre line :
  _patch_spec_data (pre ++ [line])
  = result ← _patch_spec_data pre; patch_line result line.
Proof.
  unfold Packetizer._patch_spec_data. rewrite for_each_app.
  destruct (for_each _ _ pre); simpl; [|done].
  by destruct (Packetizer.patch_line _ _ _ _ _).
Qed.

Lemma patch_line_terminated result line out :
  Forall (λ l, Str.ends_with LF l = true) result →
  Str.ends_with LF line = true →
  Str.contains "%define name" line = true ∨
    Str.contains "%description" line = true ∨
    Str.contains "%setup" line = false →
  patch_line result line = Some out →
  Forall (λ l, Str.ends_with LF l = true) out.
Proof.
  intros Hresult Hline Hsetup. unfold Packetizer.patch_line.
  destruct (Str.contains "%define name" line).
  { intros [= <-]. apply Forall_app. split; [done|].
    repeat constructor. terminated. }
  destruct (Str.contains "%description" line).
  { destruct (for_each _ _ _) as [r|] eqn:Hr; [|done]. simpl.
    intros [= <-]. apply Forall_app. split; [|by repeat constructor].
    clear Hsetup. revert result r Hresult Hr.
    induction (Package.own_deps package) as [|d ds IH]; intros result r.
    - by intros ? [= <-].
    - rewrite for_each_cons. intros Hresult.
      destruct (Packetizer.declare _ _ result d) as [r'|] eqn:Hd; [|done].
      simpl. apply IH. revert Hd. unfold Packetizer.declare.
      destruct (collect_name _) as [depname|]; [|done]. simpl.
      destruct (_ && _).
      + intros [= <-]. apply Forall_app. split; [done|].
        repeat constructor. terminated.
      + rewrite !foldl_snoc. intros [= <-].
        rewrite !Forall_app, !Forall_fmap. split_and!; [done|..].
        all: apply Forall_true; intros x; cbv beta delta [compose].
        all: terminated. }
  destruct Hsetup as [?|[?| ->]]; try done.
  destruct (Str.contains "Source0:" line).
  - intros [= <-]. apply Forall_app. split; [done|].
    repeat constructor. terminated.
  - intros [= <-]. apply Forall_app. split; [done|]. by repeat constructor.
Qed.

End rewriter.

(** Away from the unpack directive the rewriter keeps lines terminated: if
    every input line ends in a line feed and none is rewritten by the
    [%setup] rule, every output line ends in a line feed. *)
Lemma _patch_spec_data_terminated collect_name self package lines out :
  Forall (λ l, Str.ends_with LF l = true) lines →
  Forall (λ l, Str.contains "%define name" l = true ∨
               Str.contains "%description" l = true ∨
               Str.contains "%setup" l = false) lines →
  Packetizer._patch_spec_data collect_name self package lines = Some out →
  Forall (λ l, Str.ends_with LF l = true) out.
Proof.
  revert out. induction lines as [|line lines IH] using rev_ind;
    intros out Hlines Hsetup.
  - intros [= <-]. repeat constructor.
    all: terminated.
  - apply Forall_app in Hlines as [Hlines Hline%Forall_inv].
    apply Forall_app in Hsetup as [Hsetup Hl%Forall_inv].
    rewrite _patch_spec_data_snoc.
    destruct (Packetizer._patch_spec_data _ _ _ lines) as [result|] eqn:Hr;
      [|done].
    simpl. intros Hout.
    eapply patch_line_terminated; [by apply IH|done|done|exact Hout].
Qed.

(** C3. At a description marker, a line that holds [%description] and not
    the [%define name] tested before it, the rewriter appends, ahead of the
    line itself and for each of [own_deps] in order, the declaration lines
    of the specification under the name that the lookup returns: one bare
    [Requires:] line for a dependency without constraints, otherwise one
    [Requires:] line per requires entry and one [Conflicts:] line, pinned
    with [==], per conflicts entry. *)
Theorem description_declarations collect_name self package pre result line
    names :
  Str.contains "%define name" line = false →
  Str.contains "%description" line = true →
  Forall2 (λ d n, collect_name (Dependency.package d) = Some n)
          (Package.own_deps package) names →
  Packetizer._patch_spec_data collect_name self package pre = Some result →
  Packetizer._patch_spec_data collect_name self package (pre ++ [line])
  = Some (result ++
          mjoin (zip_with (declaration_lines (Packetizer.prefix self))
                          names (Package.own_deps package)) ++
          [line]).
Proof.
  intros Hname Hdesc Hnames Hpre.
  rewrite _patch_spec_data_snoc, Hpre. simpl.
  unfold Packetizer.patch_line. rewrite Hname, Hdesc.
  rewrite (declare_all _ _ _ _ _ Hnames). simpl.
  by rewrite <- app_assoc.
Qed.

Lemma description_declarations_witness :
  Packetizer._patch_spec_data same_name mycompany foo_package
    ["%description" +:+ String LF ""]
  = Some [ "%define __python /usr/bin/python3" +:+ String LF "";
           "%define original_name foo" +:+ String LF "";
           "Requires: mycompany-depname" +:+ String LF "";
           "Requires: mycompany-other >= 1.9" +:+ String LF "";
           "Conflicts: mycompany-other == 2.0" +:+ String LF "";
           "%description" +:+ String LF "" ].
Proof.
  assert (Forall2 (λ d n, same_name (Dependency.package d) = Some n)
            (Package.own_deps foo_package) ["depname"; "other"]) as Hnames
    by (repeat constructor).
  exact (description_declarations same_name mycompany foo_package []
           [ "%define __python /usr/bin/python3" +:+ String LF "";
             "%define original_name foo" +:+ String LF "" ]
           ("%description" +:+ String LF "") ["depname"; "other"]
           eq_refl eq_refl Hnames eq_refl).
Defined.

(** C8 fails on the code. The replacement for a line with [%setup] is
    appended without a line feed, the only literal of the rewriter that
    lacks one, so a descriptor of terminated lines is rewritten to one with
    an unterminated line. *)
Theorem setup_replacement_unterminated :
  Forall (λ l, Str.ends_with LF l = true)
    ["%setup -n %{name}-%{unmangled_version}" +:+ String LF ""] ∧
  Packetizer._patch_spec_data same_name mycompany foo_package
    ["%setup -n %{name}-%{unmangled_version}" +:+ String LF ""]
  = Some [ "%define __python /usr/bin/python3" +:+ String LF "";
           "%define original_name foo" +:+ String LF "";
           "%setup -n %{original_name}-%{unmangled_version}" ] ∧
  Str.ends_with LF "%setup -n %{original_name}-%{unmangled_version}" = false.
Proof. split_and!; [by repeat constructor|done|done]. Qed.

(** C9, as amended. A line that holds [Source0:] and none of the three
    triggers tested before it is replaced by [Source0: ] followed by the
    base name of the archive path: the path without its directory part,
    free of slashes. *)
Theorem source0_basename collect_name self package pre result line :
  Str.contains "%define name" line = false →
  Str.contains "%description" line = false →
  Str.contains "%setup" line = false →
  Str.contains "Source0:" line = true →
  Packetizer._patch_spec_data collect_name self package pre = Some result →
  Packetizer._patch_spec_data collect_name self package (pre ++ [line])
  = Some (result ++
          ["Source0: " +:+ Str.basename (Package.archive package) +:+
           String LF ""]) ∧
  Str.has_char "/" (Str.basename (Package.archive package)) = false ∧
  ∃ dir, Package.archive package
         = dir +:+ Str.basename (Package.archive package) ∧
         (dir = "" ∨ Str.ends_with "/" dir = true).
Proof.
  intros Hname Hdesc Hsetup Hsource Hpre. split_and!.
  - rewrite _patch_spec_data_snoc, Hpre. simpl.
    unfold Packetizer.patch_line.
    by rewrite Hname, Hdesc, Hsetup, Hsource.
  - apply basename_no_slash.
  - apply basename_suffix.
Qed.

Lemma source0_basename_witness :
  Package.archive foo_package = "/sources/foo-1.2.3.tar.gz" ∧
  Packetizer._patch_spec_data same_name mycompany foo_package
    ["Source0: %{name}-%{unmangled_version}.tar.gz" +:+ String LF ""]
  = Some [ "%define __python /usr/bin/python3" +:+ String LF "";
           "%define original_name foo" +:+ String LF "";
           "Source0: foo-1.2.3.tar.gz" +:+ String LF "" ].
Proof.
  split; [reflexivity|].
  exact (proj1 (source0_basename same_name mycompany foo_package []
           [ "%define __python /usr/bin/python3" +:+ String LF "";
             "%define original_name foo" +:+ String LF "" ]
           ("Source0: %{name}-%{unmangled_version}.tar.gz" +:+ String LF "")
           eq_refl eq_refl eq_refl eq_refl eq_refl)).
Defined.

(** C9 as stated fails: a line that holds [Source0:] after a [%setup] is
    taken by the rule for [%setup], which comes first. *)
Lemma source0_after_setup_not_replaced :
  Str.contains "Source0:" ("# %setup unpacks Source0:" +:+ String LF "")
  = true ∧
  Packetizer._patch_spec_data same_name mycompany foo_package
    ["# %setup unpacks Source0:" +:+ String LF ""]
  = Some [ "%define __python /usr/bin/python3" +:+ String LF "";
           "%define original_name foo" +:+ String LF "";
           "%setup -n %{original_name}-%{unmangled_version}" ] ∧
  Packetizer._patch_spec_data same_name mycompany foo_package
    ["# %setup unpacks Source0:" +:+ String LF ""]
  ≠ Some [ "%define __python /usr/bin/python3" +:+ String LF "";
           "%define original_name foo" +:+ String LF "";
           "Source0: foo-1.2.3.tar.gz" +:+ String LF "" ].
Proof. split_and!; [done|done|discriminate]. Qed.

(** * Further properties of the program *)

(** ** The resolver: what it collects, in which order, and when it raises *)

Section closure.

Context (deps : list Report.entry).

Local Abbreviation listed := (listed deps).
Local Abbreviation Unfold := (Unfold deps).
Local Abbreviation Reachable := (Reachable deps).
Local Abbreviation name := Report.package_name.

Lemma Reachable_mono q q' x :
  (∀ y, y ∈ q → Reachable q' y) → Reachable q x → Reachable q' x.
Proof.
  intros Hq. induction 1 as [x Hx|y x _ IH Hx]; [by apply Hq|].
  by eapply Reachable_listed.
Qed.

Lemma Unfold_closed q c y x :
  Unfold q c → y ∈ c → x ∈ listed (name y) → x ∈ c.
Proof.
  intros Hc. revert y x.
  induction Hc as [|x0 q lx lq Hx IHx Hq IHq]; intros y x Hy Hlisted.
  - by apply elem_of_nil in Hy.
  - rewrite elem_of_cons, elem_of_app in Hy.
    rewrite elem_of_cons, elem_of_app. right.
    destruct Hy as [->|[Hy|Hy]].
    + left. by eapply Unfold_incl.
    + left. by eapply IHx.
    + right. by eapply IHq.
Qed.

Lemma Unfold_Reachable q c x : Unfold q c → x ∈ c → Reachable q x.
Proof.
  intros Hc. revert x.
  induction Hc as [|x0 q lx lq Hx IHx Hq IHq]; intros x Hin.
  - by apply elem_of_nil in Hin.
  - rewrite elem_of_cons, elem_of_app in Hin.
    destruct Hin as [->|[Hin|Hin]].
    + apply Reachable_queued. left.
    + apply (Reachable_mono (listed (name x0))); [|by apply IHx].
      intros y Hy. apply (Reachable_listed _ _ x0); [|done].
      apply Reachable_queued. left.
    + apply (Reachable_mono q); [|by apply IHq].
      intros y Hy. apply Reachable_queued. by right.
Qed.

Lemma Reachable_Unfold q c x : Unfold q c → Reachable q x → x ∈ c.
Proof.
  intros Hc. induction 1 as [x Hx|y x _ IH Hx].
  - by eapply Unfold_incl.
  - by eapply Unfold_closed.
Qed.

(** What the loop returns is, up to order and repetition, what can be
    reached from its queue. *)
Lemma flatify_Reachable fuel queue all_deps x :
  Packetizer.flatify fuel deps [] queue = Some all_deps →
  x ∈ all_deps ↔ Reachable queue x.
Proof.
  intros (l & -> & (c & Hc & Hp)%Walk_Unfold)%flatify_Walk. simpl.
  rewrite Hp. split; [by apply Unfold_Reachable|by apply Reachable_Unfold].
Qed.

(** Whatever can be reached is an item of some entry of the report. *)
Lemma Reachable_listed_somewhere target x :
  Reachable (listed target) x →
  ∃ e, e ∈ deps ∧ x ∈ Report.dependencies e.
Proof.
  intros [y Hy|y z _ Hy].
  all: apply elem_of_listed in Hy as (e & ? & _ & ?); eauto.
Qed.

End closure.

Lemma _requires_no_LF requirement :
  Str.has_char LF requirement = false →
  Dependency._requires requirement = Some (constraint_buckets requirement).
Proof.
  intros HLF. unfold Dependency._requires, constraint_buckets.
  case_decide; [done|].
  by rewrite _requires_loop by by apply split_no_char.
Qed.

Lemma parse_no_LF x :
  Str.has_char LF (Report.required_version x) = false →
  is_Some (Dependency.parse x).
Proof.
  intros HLF. unfold Dependency.parse. rewrite (_requires_no_LF _ HLF).
  simpl. by destruct (constraint_buckets _).
Qed.

(** X1. When the resolver returns, [all_deps] holds exactly the records
    parsed from the items that can be reached from the target: the items
    listed under its name, and the items listed under the name of an item
    that can be reached. *)
Theorem all_deps_is_closure fuel package deps p d :
  Packetizer._parse_deps_tree fuel package deps = Returned p →
  d ∈ Package.all_deps p ↔
  ∃ x, Reachable deps (listed deps (Package.package package)) x ∧
       Dependency.parse x = Some d.
Proof.
  unfold Packetizer._parse_deps_tree. fold (listed deps (Package.package package)).
  destruct (Packetizer.flatify _ _ _ _) as [all_deps|] eqn:Hwalk; [|done].
  destruct (mapM _ (listed _ _)) as [own|]; [|done].
  destruct (mapM _ all_deps) as [all|] eqn:Hall; [|done].
  intros [= <-]. simpl. rewrite sorted_set_elem, (mapM_elem _ _ _ _ Hall).
  split; intros (x & Hx & Hd); exists x; split; try done.
  all: by apply (flatify_Reachable _ _ _ _ _ Hwalk).
Qed.

Lemma all_deps_is_closure_witness :
  ∃ p, Packetizer._parse_deps_tree 5 (Package.new "Flask" "") flask_report
       = Returned p ∧
       Dependency.mk "MarkupSafe" "1.1.1" [(">=", "0.23")] []
       ∈ Package.all_deps p.
Proof.
  eexists. split; [vm_compute; reflexivity|].
  apply (all_deps_is_closure 5 (Package.new "Flask" "") flask_report);
    [vm_compute; reflexivity|].
  exists (Report.mk_dep "MarkupSafe" "1.1.1" ">=0.23"). split; [|done].
  apply (Reachable_listed _ _ (Report.mk_dep "Jinja2" "2.11.2" ">=2.10.1")).
  - apply Reachable_queued. left.
  - left.
Defined.

(** X2. When the resolver returns, [own_deps] holds exactly the records
    parsed from the items of the entries named like the target, of all
    such entries when the report has several. *)
Theorem own_deps_is_listed fuel package deps p d :
  Packetizer._parse_deps_tree fuel package deps = Returned p →
  d ∈ Package.own_deps p ↔
  ∃ e x, e ∈ deps ∧
         Report.entry_package_name e = Package.package package ∧
         x ∈ Report.dependencies e ∧ Dependency.parse x = Some d.
Proof.
  unfold Packetizer._parse_deps_tree. fold (listed deps (Package.package package)).
  destruct (Packetizer.flatify _ _ _ _) as [all_deps|]; [|done].
  destruct (mapM _ (listed _ _)) as [own|] eqn:Hown; [|done].
  destruct (mapM _ all_deps) as [all|]; [|done].
  intros [= <-]. simpl. rewrite sorted_set_elem, (mapM_elem _ _ _ _ Hown).
  split.
  - intros (x & (e & ? & ? & ?)%elem_of_listed & Hd). by exists e, x.
  - intros (e & x & ? & ? & ? & Hd). exists x. split; [|done].
    apply elem_of_listed. by exists e.
Qed.

Lemma own_deps_is_listed_witness :
  ∃ p, Packetizer._parse_deps_tree 5 (Package.new "Flask" "") flask_report
       = Returned p ∧
       Dependency.mk "Jinja2" "2.11.2" [(">=", "2.10.1")] []
       ∈ Package.own_deps p.
Proof.
  eexists. split; [vm_compute; reflexivity|].
  apply (own_deps_is_listed 5 (Package.new "Flask" "") flask_report);
    [vm_compute; reflexivity|].
  exists (Report.mk_entry "Flask"
            [ Report.mk_dep "Jinja2" "2.11.2" ">=2.10.1";
              Report.mk_dep "Werkzeug" "1.0.1" ">=0.15,!=0.16.0" ]),
         (Report.mk_dep "Jinja2" "2.11.2" ">=2.10.1").
  split_and!; [left|done|left|done].
Defined.

Lemma sorted_set_strict `{CmpLaws A, !EqDecision A} (l : list A) :
  StronglySorted cmp_lt (sorted_set l).
Proof.
  pose proof (Sorted_StronglySorted cmp_le _ (sorted_set_Sorted l)) as Hs.
  pose proof (sorted_set_NoDup l) as Hnd.
  induction Hs as [|x k Hk IH Hx]; [constructor|].
  apply NoDup_cons in Hnd as [Hxk Hnd].
  constructor; [by apply IH|].
  apply Forall_forall. intros y Hy.
  rewrite Forall_forall in Hx. specialize (Hx y Hy).
  unfold cmp_le in Hx. unfold cmp_lt. rewrite cmp_opp in Hx.
  destruct (cmp x y) eqn:E; [|done|done].
  apply cmp_eq in E as ->. done.
Qed.

(** X3. When the resolver returns, both lists are in strictly ascending
    order of the field tuples (package, installed, requires, conflicts):
    sorted, and without two equal records. *)
Theorem deps_strictly_sorted fuel package deps p :
  Packetizer._parse_deps_tree fuel package deps = Returned p →
  StronglySorted cmp_lt (Package.own_deps p) ∧
  StronglySorted cmp_lt (Package.all_deps p).
Proof.
  unfold Packetizer._parse_deps_tree.
  destruct (Packetizer.flatify _ _ _ _) as [all_deps|]; [|done].
  destruct (mapM _ (Packetizer.extend_matching _ _ _)) as [own|]; [|done].
  destruct (mapM _ all_deps) as [all|]; [|done].
  intros [= <-]. simpl. split; apply sorted_set_strict.
Qed.

Lemma deps_strictly_sorted_witness :
  ∃ p, Packetizer._parse_deps_tree 5 (Package.new "Flask" "") flask_report
       = Returned p ∧
       Dependency.package <$> Package.all_deps p
       = ["Jinja2"; "MarkupSafe"; "Werkzeug"] ∧
       StronglySorted cmp_lt (Package.own_deps p) ∧
       StronglySorted cmp_lt (Package.all_deps p).
Proof.
  eexists. split; [vm_compute; reflexivity|]. split; [reflexivity|].
  apply (deps_strictly_sorted 5 (Package.new "Flask" "") flask_report).
  vm_compute. reflexivity.
Defined.

Lemma _parse_deps_tree_Raised_inv fuel package deps :
  Packetizer._parse_deps_tree fuel package deps = Raised →
  ∃ x, Reachable deps (listed deps (Package.package package)) x ∧
       Dependency.parse x = None.
Proof.
  unfold Packetizer._parse_deps_tree. fold (listed deps (Package.package package)).
  destruct (Packetizer.flatify _ _ _ _) as [all_deps|] eqn:Hwalk; [|done].
  destruct (mapM _ (listed _ _)) as [own|] eqn:Hown.
  - destruct (mapM _ all_deps) as [all|] eqn:Hall; [done|]. intros _.
    apply mapM_None, Exists_exists in Hall as (x & Hx & Hnone).
    exists x. split; [|done]. by apply (flatify_Reachable _ _ _ _ _ Hwalk).
  - intros _. apply mapM_None, Exists_exists in Hown as (x & Hx & Hnone).
    exists x. split; [|done]. by apply Reachable_queued.
Qed.

(** X4. The resolver raises exactly when its walk returns and some item
    it can reach has a requirement that the parser raises on. *)
Theorem _parse_deps_tree_raises_iff fuel package deps :
  Packetizer._parse_deps_tree fuel package deps = Raised ↔
  (∃ all_deps,
     Packetizer.flatify fuel deps [] (listed deps (Package.package package))
     = Some all_deps) ∧
  ∃ x, Reachable deps (listed deps (Package.package package)) x ∧
       Dependency.parse x = None.
Proof.
  unfold Packetizer._parse_deps_tree. fold (listed deps (Package.package package)).
  destruct (Packetizer.flatify _ _ _ _) as [all_deps|] eqn:Hwalk.
  - destruct (mapM _ (listed _ _)) as [own|] eqn:Hown.
    + destruct (mapM _ all_deps) as [all|] eqn:Hall.
      * split; [done|]. intros [_ (x & Hx & Hnone)].
        apply (flatify_Reachable _ _ _ _ _ Hwalk) in Hx.
        assert (mapM Dependency.parse all_deps = None); [|congruence].
        apply mapM_None, Exists_exists. eauto.
      * split; [|done]. intros _. split; [eauto|].
        apply mapM_None, Exists_exists in Hall as (x & Hx & Hnone).
        exists x. split; [|done].
        by apply (flatify_Reachable _ _ _ _ _ Hwalk).
    + split; [|done]. intros _. split; [eauto|].
      apply mapM_None, Exists_exists in Hown as (x & Hx & Hnone).
      exists x. split; [|done]. by apply Reachable_queued.
  - split; [done|]. by intros [[? ?] _].
Qed.

Lemma _parse_deps_tree_raises_iff_witness :
  Packetizer._parse_deps_tree 5 (Package.new "app" "")
    [ Report.mk_entry "app" [ Report.mk_dep "lib" "1.0" "" ];
      Report.mk_entry "lib"
        [ Report.mk_dep "odd" "2.0" (">=1" +:+ String LF "<2") ] ]
  = Raised.
Proof.
  apply _parse_deps_tree_raises_iff. split; [by eexists|].
  exists (Report.mk_dep "odd" "2.0" (">=1" +:+ String LF "<2")).
  split; [|done].
  apply (Reachable_listed _ _ (Report.mk_dep "lib" "1.0" "")).
  - apply Reachable_queued. left.
  - left.
Defined.

(** X5. On a report without a reachable cycle in which no requirement
    holds a line feed, the resolver returns, given enough fuel. *)
Theorem _parse_deps_tree_returns package deps :
  acyclic_from deps (listed deps (Package.package package)) →
  (∀ e x, e ∈ deps → x ∈ Report.dependencies e →
          Str.has_char LF (Report.required_version x) = false) →
  ∃ fuel, ∀ fuel', fuel ≤ fuel' →
    ∃ p, Packetizer._parse_deps_tree fuel' package deps = Returned p.
Proof.
  intros (fuel & r & Hr)%(flatify_acyclic deps []) HLF.
  exists fuel. intros fuel' Hr'%(λ Hle, flatify_fuel_mono _ _ _ _ _ _ Hle Hr).
  destruct (Packetizer._parse_deps_tree fuel' package deps) as [p| |] eqn:E.
  - eauto.
  - apply _parse_deps_tree_Raised_inv in E as (x & Hx & Hnone).
    apply Reachable_listed_somewhere in Hx as (e & He & Hx).
    destruct (parse_no_LF x (HLF e x He Hx)). congruence.
  - unfold Packetizer._parse_deps_tree in E. unfold listed in Hr'.
    rewrite Hr' in E. by repeat case_match.
Qed.

Lemma _parse_deps_tree_returns_witness :
  ∃ fuel, ∀ fuel', fuel ≤ fuel' →
    ∃ p, Packetizer._parse_deps_tree fuel' (Package.new "Flask" "")
           flask_report = Returned p.
Proof.
  apply (_parse_deps_tree_returns (Package.new "Flask" "") flask_report).
  - apply (ranked_acyclic _ flask_rank). repeat constructor.
  - intros e x He Hx. revert x Hx. apply Forall_forall.
    revert e He. apply Forall_forall. repeat constructor.
Defined.

(** ** Strings: splitting and joining *)

Lemma append_String a s t : String a s +:+ t = String a (s +:+ t).
Proof. done. Qed.

Lemma append_empty_l t : "" +:+ t = t.
Proof. done. Qed.

Lemma append_empty_r s : s +:+ "" = s.
Proof.
  induction s as [|a s IH]; [done|]. by rewrite append_String, IH.
Qed.

Lemma append_assoc s t u : (s +:+ t) +:+ u = s +:+ t +:+ u.
Proof.
  induction s as [|a s IH]; [done|]. by rewrite !append_String, IH.
Qed.

Lemma has_char_app c s t :
  Str.has_char c (s +:+ t) = Str.has_char c s || Str.has_char c t.
Proof.
  induction s as [|a s IH]; [done|].
  rewrite append_String. simpl. by rewrite IH, orb_assoc.
Qed.

(** What [span] returns: the two pieces of the string, the first all
    within the class, the second empty or starting outside it. *)
Lemma span_spec p s a b :
  Str.span p s = (a, b) →
  s = a +:+ b ∧ Str.all_chars p a = true ∧
  (b = "" ∨ ∃ c b', b = String c b' ∧ p c = false).
Proof.
  revert a b. induction s as [|c s IH]; intros a b; simpl.
  - intros [= <- <-]. auto.
  - destruct (p c) eqn:Hc.
    + destruct (Str.span p s) as [a' b'].
      destruct (IH a' b' eq_refl) as (-> & Ha & Hb).
      intros [= <- <-]. simpl. rewrite Hc. auto.
    + intros [= <- <-]. split_and!; [done|done|]. right. eauto.
Qed.

Lemma span_app p a b :
  Str.all_chars p a = true →
  (b = "" ∨ ∃ c b', b = String c b' ∧ p c = false) →
  Str.span p (a +:+ b) = (a, b).
Proof.
  intros Ha Hb. induction a as [|c a IH].
  - rewrite append_empty_l.
    destruct Hb as [->|(c & b' & -> & Hc)]; simpl; [done|by rewrite Hc].
  - simpl in Ha. apply andb_true_iff in Ha as [Hc Ha].
    rewrite append_String. simpl. by rewrite Hc, (IH Ha).
Qed.

Lemma span_idem p s :
  Str.span p ((Str.span p s).1 +:+ (Str.span p s).2) = Str.span p s.
Proof.
  destruct (Str.span p s) as [a b] eqn:E.
  apply span_spec in E as (_ & Ha & Hb). by apply span_app.
Qed.

Lemma split_nonempty sep s : Str.split sep s ≠ [].
Proof.
  destruct s as [|c s]; simpl; [done|].
  destruct (Ascii.eqb c sep); [done|]. by destruct (Str.split sep s).
Qed.

Lemma split_no_sep sep s :
  Forall (λ part, Str.has_char sep part = false) (Str.split sep s).
Proof.
  induction s as [|c s IH]; simpl; [by repeat constructor|].
  destruct (Ascii.eqb c sep) eqn:Hc; [by constructor|].
  destruct (Str.split sep s) as [|p ps]; [repeat constructor; simpl|].
  - by rewrite Hc.
  - inv IH. constructor; [simpl|done]. rewrite Hc. done.
Qed.

(** Joining the pieces of a split with the separator gives the string
    back. *)
Lemma concat_split sep s :
  String.concat (String sep "") (Str.split sep s) = s.
Proof.
  induction s as [|c s IH]; simpl; [done|].
  destruct (Ascii.eqb_spec c sep) as [->|Hc].
  - pose proof (split_nonempty sep s) as Hne.
    destruct (Str.split sep s) as [|p ps]; [done|].
    simpl in *. by rewrite append_empty_l, append_String, append_empty_l, IH.
  - pose proof (split_nonempty sep s) as Hne.
    destruct (Str.split sep s) as [|p ps]; [done|].
    simpl in *. destruct ps as [|q qs].
    + by rewrite IH.
    + by rewrite append_String, IH.
Qed.

(** Splitting a join of pieces that are free of the separator gives the
    pieces back. *)
Lemma split_String sep c s :
  Str.split sep (String c s) =
  if Ascii.eqb c sep then "" :: Str.split sep s
  else match Str.split sep s with
       | [] => [String c ""]
       | p :: ps => String c p :: ps
       end.
Proof. done. Qed.

Lemma split_app_sep sep part s :
  Str.has_char sep part = false →
  Str.split sep (part +:+ String sep "" +:+ s) = part :: Str.split sep s.
Proof.
  induction part as [|c part IH]; intros Hpart.
  - rewrite append_empty_l, append_String, append_empty_l, split_String.
    by rewrite Ascii.eqb_refl.
  - simpl in Hpart. apply orb_false_iff in Hpart as [Hc Hpart].
    by rewrite append_String, split_String, Hc, (IH Hpart).
Qed.

Lemma split_no_sep_id sep part :
  Str.has_char sep part = false → Str.split sep part = [part].
Proof.
  induction part as [|c part IH]; intros Hpart; [done|].
  simpl in Hpart. apply orb_false_iff in Hpart as [Hc Hpart].
  by rewrite split_String, Hc, (IH Hpart).
Qed.

Lemma split_concat sep parts :
  parts ≠ [] →
  Forall (λ part, Str.has_char sep part = false) parts →
  Str.split sep (String.concat (String sep "") parts) = parts.
Proof.
  intros Hne Hparts. induction Hparts as [|part parts Hpart Hparts IH]; [done|].
  clear Hne. destruct parts as [|q qs].
  - by apply split_no_sep_id.
  - change (String.concat (String sep "") (part :: q :: qs))
      with (part +:+ String sep "" +:+ String.concat (String sep "") (q :: qs)).
    by rewrite split_app_sep, IH.
Qed.

Lemma concat_empty sep parts :
  String.concat (String sep "") parts = "" → parts = [] ∨ parts = [""].
Proof.
  destruct parts as [|p [|q qs]].
  - auto.
  - simpl. intros ->. auto.
  - change (String.concat (String sep "") (p :: q :: qs))
      with (p +:+ String sep "" +:+ String.concat (String sep "") (q :: qs)).
    destruct p; [rewrite append_empty_l|]; rewrite append_String; done.
Qed.

(** ** Dependency.__str__ and the parser *)

Local Abbreviation cat := (λ part : string * string, part.1 +:+ part.2).
Local Abbreviation is_require := (λ p : string * string, p.1 ≠ "!=").
Local Abbreviation is_conflict := (λ p : string * string, p.1 = "!=").

Lemma cat_split_op_version part :
  (split_op_version part).1 +:+ (split_op_version part).2 = part.
Proof.
  unfold split_op_version.
  destruct (Str.span Dependency.op_char part) as [op ver] eqn:E.
  by apply span_spec in E as (-> & _ & _).
Qed.

Lemma split_op_version_cat part :
  split_op_version ((split_op_version part).1 +:+ (split_op_version part).2)
  = split_op_version part.
Proof. by rewrite cat_split_op_version. Qed.

Lemma filter_two_buckets {A} (Q R : A → Prop)
    `{∀ x, Decision (Q x), ∀ x, Decision (R x)} (l : list A) :
  (∀ x, Q x ↔ ¬ R x) →
  filter Q (filter Q l) = filter Q l ∧ filter Q (filter R l) = [] ∧
  filter R (filter Q l) = [] ∧ filter R (filter R l) = filter R l ∧
  length (filter Q l) + length (filter R l) = length l ∧
  (filter R l = [] → filter Q l = l).
Proof.
  intros HQR. induction l as [|x l (IH1 & IH2 & IH3 & IH4 & IH5 & IH6)];
    [done|].
  destruct (decide (Q x)) as [Hx|Hx].
  - assert (¬ R x) as Hx' by by apply HQR.
    rewrite (filter_cons_True Q), (filter_cons_False R) by done.
    rewrite (filter_cons_True Q), (filter_cons_False R) by done.
    rewrite IH1, IH2, IH3, IH4. simpl.
    split_and!; try done; [lia|]. intros HR. by rewrite IH6.
  - assert (R x) as Hx' by (apply dec_stable; by rewrite <- HQR).
    rewrite (filter_cons_False Q), (filter_cons_True R) by done.
    rewrite (filter_cons_False Q), (filter_cons_True R) by done.
    rewrite IH1, IH2, IH3, IH4. simpl.
    split_and!; try done. lia.
Qed.

Lemma buckets_facts (P : list (string * string)) :
  filter is_require (filter is_require P ++ filter is_conflict P)
  = filter is_require P ∧
  filter is_conflict (filter is_require P ++ filter is_conflict P)
  = filter is_conflict P ∧
  length (filter is_require P ++ filter is_conflict P) = length P ∧
  (filter is_conflict P = [] → filter is_require P = P).
Proof.
  destruct (filter_two_buckets is_require is_conflict P)
    as (H1 & H2 & H3 & H4 & H5 & H6).
  { intros x. simpl. split; [done|]. intros Hx. by destruct (decide (x.1 = "!=")). }
  rewrite !filter_app, length_app, H1, H2, H3, H4, app_nil_r. done.
Qed.

(** Parts that split back to themselves, joined by commas, parse to their
    own two buckets. *)
Lemma _requires_concat (L : list (string * string)) :
  Forall (λ p, split_op_version (cat p) = p ∧
               Str.has_char "," (cat p) = false ∧
               Str.has_char LF (cat p) = false) L →
  String.concat "," (cat <$> L) ≠ "" →
  Dependency._requires (String.concat "," (cat <$> L))
  = Some (filter is_require L, filter is_conflict L).
Proof.
  intros HL Hne. unfold Dependency._requires.
  rewrite decide_False by done.
  assert (L ≠ []) as HLne by (by intros ->).
  rewrite (split_concat ","%char).
  - rewrite _requires_loop.
    + simpl. do 2 f_equal.
      all: f_equal; rewrite <- list_fmap_compose.
      all: rewrite <- (list_fmap_id L) at 2; apply Forall_fmap_ext_1.
      all: eapply Forall_impl; [exact HL|]; by intros p (? & _).
    + apply Forall_fmap. eapply Forall_impl; [exact HL|]. by intros p (_ & _ & ?).
  - by destruct L.
  - apply Forall_fmap. eapply Forall_impl; [exact HL|]. by intros p (_ & ? & _).
Qed.

Lemma buckets_well_formed requirement :
  Str.has_char LF requirement = false →
  Forall (λ p, split_op_version (cat p) = p ∧
               Str.has_char "," (cat p) = false ∧
               Str.has_char LF (cat p) = false)
         (split_op_version <$> Str.split "," requirement).
Proof.
  intros HLF. apply Forall_fmap.
  pose proof (split_no_sep ","%char requirement) as Hsep.
  pose proof (split_no_char ","%char LF requirement HLF) as Hlf.
  induction Hsep as [|part parts Hpart _ IH]; [constructor|].
  inv Hlf. constructor; [|by apply IH].
  simpl. by rewrite split_op_version_cat, cat_split_op_version.
Qed.

(** X6. The text that [__str__] shows after the package name parses back
    to the constraints of the record: for a record parsed from a
    requirement without a line feed, the comma-joined parts, requires
    first, give the same requires and conflicts again. *)
Theorem __str___parses_back dep d :
  Str.has_char LF (Report.required_version dep) = false →
  Dependency.parse dep = Some d →
  ∃ shown,
    Dependency.__str__ d = Report.package_name dep +:+ " " +:+ shown ∧
    Dependency._requires shown
    = Some (Dependency.requires d, Dependency.conflicts d).
Proof.
  intros HLF. unfold Dependency.parse.
  rewrite (_requires_no_LF _ HLF). unfold constraint_buckets.
  set (r := Report.required_version dep) in *.
  destruct (decide (r = "")) as [Hr|Hr]; simpl; intros [= <-].
  { exists "". done. }
  set (P := split_op_version <$> Str.split "," r).
  eexists. split; [reflexivity|]. simpl.
  pose proof (buckets_well_formed r HLF) as HP. fold P in HP.
  rewrite _requires_concat.
  - by destruct (buckets_facts P) as (-> & -> & _).
  - rewrite Forall_forall in HP.
    apply Forall_app. split; apply Forall_forall.
    all: intros p [_ Hp]%list_elem_of_filter; by apply HP.
  - intros Hshown. apply Hr.
    apply (concat_empty ","%char) in Hshown as [HL|HL].
    + apply fmap_nil_inv in HL.
      destruct (buckets_facts P) as (_ & _ & Hlen & _).
      rewrite HL in Hlen. subst P.
      rewrite length_fmap in Hlen.
      pose proof (split_nonempty ","%char r). by destruct (Str.split _ r).
    + destruct (buckets_facts P) as (_ & _ & Hlen & _).
      rewrite <- (length_fmap cat), HL in Hlen. simpl in Hlen.
      assert (∃ p, P = [p]) as [p HPp]
        by (destruct P as [|p [|??]]; try done; eauto).
      assert (cat p = "") as Hp.
      { revert HL. rewrite HPp, !filter_cons, !filter_nil.
        repeat case_decide; simpl; congruence. }
      subst P. rewrite <- (concat_split ","%char r).
      destruct (Str.split ","%char r) as [|part [|??]]; try done.
      simpl in HPp. injection HPp as <-.
      by rewrite cat_split_op_version in Hp.
Qed.

Lemma __str___parses_back_witness :
  ∃ d,
    Dependency.parse (Report.mk_dep "Werkzeug" "1.0.1" "!=0.16.0,>=0.15")
    = Some d ∧
    Dependency.__str__ d = "Werkzeug >=0.15,!=0.16.0" ∧
    ∃ shown,
      Dependency.__str__ d = "Werkzeug" +:+ " " +:+ shown ∧
      Dependency._requires shown
      = Some (Dependency.requires d, Dependency.conflicts d).
Proof.
  eexists. split; [reflexivity|]. split; [reflexivity|].
  exact (__str___parses_back
           (Report.mk_dep "Werkzeug" "1.0.1" "!=0.16.0,>=0.15") _
           eq_refl eq_refl).
Defined.

(** X7. For a record without conflicts, parsed from a requirement without
    a line feed, [__str__] is the package name, a space and the
    requirement as the report has it. *)
Theorem __str___verbatim dep d :
  Str.has_char LF (Report.required_version dep) = false →
  Dependency.parse dep = Some d →
  Dependency.conflicts d = [] →
  Dependency.__str__ d
  = Report.package_name dep +:+ " " +:+ Report.required_version dep.
Proof.
  intros HLF. unfold Dependency.parse.
  rewrite (_requires_no_LF _ HLF). unfold constraint_buckets.
  set (r := Report.required_version dep) in *.
  destruct (decide (r = "")) as [Hr|Hr]; simpl; intros [= <-]; simpl.
  { intros _. by rewrite Hr. }
  intros Hnone. unfold Dependency.__str__. simpl.
  rewrite Hnone, app_nil_r.
  rewrite (proj2 (proj2 (proj2 (buckets_facts _))) Hnone).
  rewrite <- list_fmap_compose.
  do 2 f_equal. rewrite <- (concat_split ","%char r) at 2. f_equal.
  rewrite <- (list_fmap_id (Str.split _ r)) at 2.
  apply list_fmap_ext. intros _ part _. apply cat_split_op_version.
Qed.

Lemma __str___verbatim_witness :
  ∃ d,
    Dependency.parse (Report.mk_dep "urllib3" "1.26.2" "<1.27,>=1.21.1")
    = Some d ∧
    Dependency.__str__ d = "urllib3 <1.27,>=1.21.1".
Proof.
  eexists. split; [reflexivity|].
  exact (__str___verbatim
           (Report.mk_dep "urllib3" "1.26.2" "<1.27,>=1.21.1") _
           eq_refl eq_refl eq_refl).
Defined.

(** ** main: from the command line to the installer *)

Lemma span_no_LF_whole s :
  Str.has_char LF s = false → Str.span Dependency.not_LF s = (s, "").
Proof. apply span_not_LF. Qed.

(** X8. When the command-line argument holds no line feed and the pattern
    of [main] matches it, the expression handed to the installer is the
    argument itself, character for character. *)
Theorem expression_of_argument arg p :
  Str.has_char LF arg = false →
  Main.requested arg = Some p →
  Package.expression p = arg.
Proof.
  intros HLF. unfold Main.requested, Main.search_groups.
  destruct (Str.span Main.name_char arg) as [g r] eqn:E.
  apply span_spec in E as (-> & _ & Hr).
  rewrite has_char_app in HLF. apply orb_false_iff in HLF as [_ HLF].
  case_decide as Hg; [done|]. rewrite (span_no_LF_whole _ HLF). simpl.
  intros [= <-]. unfold Package.expression. simpl.
  destruct Hr as [->|(c & r' & -> & Hc)]; simpl.
  - by rewrite append_empty_r.
  - unfold Main.name_char in Hc. apply negb_false_iff in Hc. by rewrite Hc.
Qed.

Lemma expression_of_argument_witness :
  ∃ p, Main.requested "requests>=2.25,<3" = Some p ∧
       Package.package p = "requests" ∧
       Package.version p = ">=2.25,<3" ∧
       Package.expression p = "requests>=2.25,<3".
Proof.
  eexists. split; [reflexivity|]. split; [reflexivity|]. split; [reflexivity|].
  exact (expression_of_argument "requests>=2.25,<3" _ eq_refl eq_refl).
Defined.

(** X9. On an argument without a line feed the pattern of [main] fails to
    match, so that [main] raises, exactly when the argument is empty or
    starts with [<], [>] or [=]. *)
Theorem argument_rejected_iff arg :
  Str.has_char LF arg = false →
  Main.requested arg = None ↔ arg = "" ∨ Package.match_ver_ops arg = true.
Proof.
  intros HLF. unfold Main.requested, Main.search_groups.
  destruct (Str.span Main.name_char arg) as [g r] eqn:E.
  pose proof (span_spec _ _ _ _ E) as (-> & Hg & Hr).
  rewrite has_char_app in HLF. apply orb_false_iff in HLF as [_ HLF].
  rewrite (span_no_LF_whole _ HLF).
  case_decide as Hg'; simpl.
  - subst g. rewrite append_empty_l. split; [intros _|done].
    destruct Hr as [->|(c & r' & -> & Hc)]; [by left|right]. simpl.
    unfold Main.name_char in Hc. by apply negb_false_iff in Hc.
  - split; [done|]. destruct g as [|c g]; [done|].
    intros [?|Hop]; [done|]. simpl in Hg, Hop.
    unfold Main.name_char in Hg. by rewrite Hop in Hg.
Qed.

Lemma argument_rejected_iff_witness :
  Main.requested ">=1.0" = None ∧ Main.requested "" = None.
Proof.
  split.
  - apply (argument_rejected_iff ">=1.0" eq_refl). by right.
  - apply (argument_rejected_iff "" eq_refl). by left.
Defined.

(** ** The metadata that pip shows *)

Lemma strip_prefix_Some p s r : Str.strip_prefix p s = Some r ↔ s = p +:+ r.
Proof.
  revert s. induction p as [|a p IH]; intros s; simpl.
  - rewrite append_empty_l. split; [by intros [= ->]|by intros ->].
  - destruct s as [|b s]; [by rewrite append_String|].
    rewrite append_String.
    destruct (Ascii.eqb_spec a b) as [->|Hab].
    + rewrite IH. split; [by intros ->|by intros [= ->]].
    + split; [done|]. by intros [= ? _].
Qed.

(** What one place of the search yields. *)
Lemma search_here field output group :
  (rest ← Str.strip_prefix field output;
   let group := (Str.span (λ c, negb (re_space c)) rest).1 in
   if decide (group = "") then None else Some group) = Some group ↔
  group ≠ "" ∧ Str.all_chars (λ c, negb (re_space c)) group = true ∧
  ∃ rest, output = field +:+ group +:+ rest ∧
          (rest = "" ∨ ∃ c rest', rest = String c rest' ∧ re_space c = true).
Proof.
  split.
  - destruct (Str.strip_prefix field output) as [rest|] eqn:E; [|done].
    apply strip_prefix_Some in E as ->. simpl.
    destruct (Str.span _ rest) as [g r] eqn:Hspan. simpl.
    case_decide; [done|]. intros [= <-].
    apply span_spec in Hspan as (-> & Hg & Hr).
    split_and!; [done|done|]. exists r. split; [done|].
    destruct Hr as [->|(c & r' & -> & Hc)]; [by left|right].
    exists c, r'. split; [done|]. by apply negb_false_iff.
  - intros (Hne & Hg & rest & -> & Hrest).
    rewrite (proj2 (strip_prefix_Some field _ (group +:+ rest)) eq_refl).
    simpl. rewrite span_app; simpl.
    + by rewrite decide_False.
    + done.
    + destruct Hrest as [->|(c & r' & -> & Hc)]; [by left|right].
      exists c, r'. split; [done|]. by rewrite Hc.
Qed.

Lemma search_group1_unfold field output :
  search_group1 field output =
  match (rest ← Str.strip_prefix field output;
         let group := (Str.span (λ c, negb (re_space c)) rest).1 in
         if decide (group = "") then None else Some group), output with
  | Some group, _ => Some group
  | None, EmptyString => None
  | None, String _ output' => search_group1 field output'
  end.
Proof. by destruct output. Qed.

(** X10. What the search for a field of the metadata returns is a
    non-empty run of characters that are not white space, standing in the
    output right after the field's label and followed by white space or
    by the end of the output. *)
Theorem search_group1_sound field output group :
  search_group1 field output = Some group →
  group ≠ "" ∧ Str.all_chars (λ c, negb (re_space c)) group = true ∧
  ∃ before rest,
    output = before +:+ field +:+ group +:+ rest ∧
    (rest = "" ∨ ∃ c rest', rest = String c rest' ∧ re_space c = true).
Proof.
  induction output as [|c output IH]; rewrite search_group1_unfold.
  - destruct (_ ≫= _) as [g|] eqn:E; [|done]. intros [= ->].
    apply search_here in E as (? & ? & rest & ? & ?).
    split_and!; [done..|]. by exists "", rest.
  - destruct (_ ≫= _) as [g|] eqn:E.
    + intros [= ->]. apply search_here in E as (? & ? & rest & ? & ?).
      split_and!; [done..|]. by exists "", rest.
    + intros (? & ? & before & rest & -> & ?)%IH.
      split_and!; [done..|]. by exists (String c before), rest.
Qed.

Lemma search_group1_sound_witness :
  search_group1 "Version: "
    ("Name: Flask" +:+ String LF "Version: 1.1.2" +:+ String LF "Summary: x")
  = Some "1.1.2" ∧
  "1.1.2" ≠ "" ∧ Str.all_chars (λ c, negb (re_space c)) "1.1.2" = true.
Proof.
  split; [reflexivity|].
  destruct (search_group1_sound "Version: "
    ("Name: Flask" +:+ String LF "Version: 1.1.2" +:+ String LF "Summary: x")
    "1.1.2" eq_refl) as (H1 & H2 & _).
  exact (conj H1 H2).
Defined.

(** X11. The search for a field finds nothing, so that reading the
    metadata raises, exactly when the label is nowhere in the output
    followed by a character that is not white space. *)
Theorem search_group1_None_iff field output :
  search_group1 field output = None ↔
  ∀ before c rest,
    output = before +:+ field +:+ String c rest → re_space c = true.
Proof.
  induction output as [|c0 output IH]; rewrite search_group1_unfold.
  all: destruct (_ ≫= _) as [g|] eqn:E.
  all: try (apply search_here in E as (Hg & Hall & rest & Hout & _);
            destruct g as [|c g]; [done|];
            simpl in Hall; apply andb_true_iff in Hall as [Hc%negb_true_iff _];
            split; [done|]; intros Hno;
            rewrite (Hno "" c (g +:+ rest)) in Hc; done).
  - split; [|done]. intros _ before c rest Hout. exfalso.
    destruct before as [|??]; [|by rewrite append_String in Hout].
    rewrite append_empty_l in Hout.
    destruct field; [by rewrite append_empty_l in Hout|].
    by rewrite append_String in Hout.
  - rewrite IH. split.
    + intros Hno before c rest Hout.
      destruct before as [|b before].
      * rewrite append_empty_l in Hout.
        destruct (re_space c) eqn:Hc; [done|]. exfalso.
        assert (is_Some (rest' ← Str.strip_prefix field (String c0 output);
                         let group :=
                           (Str.span (λ c, negb (re_space c)) rest').1 in
                         if decide (group = "") then None else Some group))
          as [? ?]; [|congruence].
        rewrite Hout,
          (proj2 (strip_prefix_Some field _ (String c rest)) eq_refl).
        simpl. rewrite Hc. simpl. by destruct (Str.span _ rest).
      * rewrite append_String in Hout. injection Hout as _ ->.
        by eapply Hno.
    + intros Hno before c rest ->. apply (Hno (String c0 before) c rest).
      by rewrite append_String.
Qed.

Lemma search_group1_None_iff_witness :
  search_group1 "Name: " ("Name: " +:+ String LF "Version: 1") = None ∧
  re_space LF = true.
Proof.
  split; [reflexivity|].
  exact (proj1 (search_group1_None_iff "Name: "
                  ("Name: " +:+ String LF "Version: 1"))
               eq_refl "" LF "Version: 1" eq_refl).
Defined.

(** ** Paths *)

Lemma ends_with_has_char c s :
  Str.ends_with c s = true → Str.has_char c s = true.
Proof.
  induction s as [|a s IH]; [done|]. simpl.
  destruct s as [|b s]; [by intros ->|].
  intros Hs. rewrite (IH Hs). by rewrite orb_true_r.
Qed.

Lemma basename_no_slash_id p :
  Str.has_char "/" p = false → Str.basename p = p.
Proof.
  destruct p as [|c p]; [done|]. simpl.
  intros [Hc Hp]%orb_false_iff. by rewrite Hp, Hc.
Qed.

Lemma basename_after_slash dir p :
  Str.ends_with "/" dir = true → Str.basename (dir +:+ p) = Str.basename p.
Proof.
  induction dir as [|c dir IH]; [done|].
  rewrite append_String. intros Hdir. simpl.
  destruct dir as [|d dir].
  - rewrite append_empty_l. simpl in Hdir.
    destruct (Str.has_char "/" p) eqn:Hp; [done|].
    by rewrite Hdir, basename_no_slash_id.
  - assert (Str.ends_with "/" (String d dir) = true) as Hdir' by exact Hdir.
    rewrite has_char_app, (ends_with_has_char _ _ Hdir'). simpl.
    by apply IH.
Qed.

(** The base name of a joined path is the base name of what was joined
    on. *)
Lemma basename_join a b : Str.basename (Str.join a b) = Str.basename b.
Proof.
  unfold Str.join. destruct (Str.starts_with "/" b); [done|].
  destruct (bool_decide (a = "")) eqn:Ha.
  - apply bool_decide_eq_true in Ha as ->. by rewrite append_empty_l.
  - simpl. destruct (Str.ends_with "/" a) eqn:Hs.
    + by apply basename_after_slash.
    + rewrite <- append_assoc. apply basename_after_slash.
      by apply ends_with_app_r.
Qed.

Lemma starts_with_app c s t :
  Str.starts_with c s = true → Str.starts_with c (s +:+ t) = true.
Proof. by destruct s. Qed.

(** Joined on an absolute path, a path is absolute, and joining it on
    anything again leaves it as it is. *)
Lemma join_absolute a a' b :
  Str.starts_with "/" a = true →
  Str.join a' (Str.join a b) = Str.join a b.
Proof.
  intros Ha.
  assert (Str.starts_with "/" (Str.join a b) = true) as Habs.
  { unfold Str.join. destruct (Str.starts_with "/" b) eqn:Hb; [done|].
    destruct (_ || _); by apply starts_with_app. }
  unfold Str.join at 1. by rewrite Habs.
Qed.

(** ** The two collecting methods *)

(** The resolver changes the two lists only, and resolving the package it
    has returned gives that package again. *)
Lemma _parse_deps_tree_again fuel package deps p :
  Packetizer._parse_deps_tree fuel package deps = Returned p →
  Packetizer._parse_deps_tree fuel p deps = Returned p ∧
  Package.package p = Package.package package ∧
  Package.version p = Package.version package.
Proof.
  unfold Packetizer._parse_deps_tree.
  destruct (Packetizer.flatify _ _ _ _) as [all_deps|] eqn:Hwalk; [|done].
  destruct (mapM _ (Packetizer.extend_matching _ _ _)) as [own|] eqn:Hown;
    [|done].
  destruct (mapM _ all_deps) as [all|] eqn:Hall; [|done].
  intros [= <-]. simpl. by rewrite Hwalk, Hown, Hall.
Qed.

Section environment.

Context (pip_show : string → option string)
        (pipdeptree : option (list Report.entry))
        (sources temp : string)
        (releases : string → string → option (list Packetizer.release_file))
        (save : string → string → option unit)
        (unpack_archive : string → string → option unit).

Local Abbreviation _collect_package_metadata :=
  (Packetizer._collect_package_metadata pip_show pipdeptree).
Local Abbreviation _download_package_sources :=
  (Packetizer._download_package_sources pip_show sources temp releases save
     unpack_archive).

(** What [_download_package_sources] has done when it returns. *)
Lemma _download_package_sources_Some package p :
  _download_package_sources package = Some p →
  ∃ output data meta,
    pip_show (Package.package package) = Some output ∧
    search_group1 "Name: " output = Some (Package.package p) ∧
    search_group1 "Version: " output = Some (Package.version p) ∧
    releases (Package.package p) (Package.version p) = Some data ∧
    head (filter (λ d, Packetizer.packagetype d = "sdist") data)
    = Some meta ∧
    Package.archive p = Str.join sources (Packetizer.filename meta) ∧
    save (Packetizer.url meta) (Package.archive p) = Some () ∧
    unpack_archive (Str.join sources (Package.archive p)) temp = Some ().
Proof.
  unfold Packetizer._download_package_sources.
  destruct (pip_show _) as [output|]; [|done]. simpl.
  destruct (search_group1 "Name: " output) as [name|] eqn:Hn; [|done]. simpl.
  destruct (search_group1 "Version: " output) as [version|] eqn:Hv; [|done].
  simpl.
  destruct (releases name version) as [data|] eqn:Hdata; [|done]. simpl.
  destruct (head _) as [meta|] eqn:Hmeta; [|done]. simpl.
  destruct (save _ _) as [[]|] eqn:Hsave; [|done]. simpl.
  destruct (unpack_archive _ _) as [[]|] eqn:Hunpack; [|done]. simpl.
  intros [= <-]. simpl. by exists output, data, meta.
Qed.

(** X12. When [_download_package_sources] returns and [self.sources] is an
    absolute path, the archive it has unpacked is the archive it has
    written, the one the package records. *)
Theorem unpacked_is_written package p :
  Str.starts_with "/" sources = true →
  _download_package_sources package = Some p →
  ∃ data meta,
    releases (Package.package p) (Package.version p) = Some data ∧
    head (filter (λ d, Packetizer.packagetype d = "sdist") data)
    = Some meta ∧
    save (Packetizer.url meta) (Package.archive p) = Some () ∧
    unpack_archive (Package.archive p) temp = Some ().
Proof.
  intros Habs Hp. apply _download_package_sources_Some in Hp
    as (output & data & meta & _ & _ & _ & Hdata & Hmeta & Harch &
        Hsave & Hunpack).
  exists data, meta. split_and!; try done.
  by rewrite Harch, (join_absolute _ _ _ Habs), <- Harch in Hunpack.
Qed.

(** X13. When [_download_package_sources] returns, the archive it records
    is named after the first source distribution among the files of the
    installed version, and a [Source0:] line of the descriptor is
    rewritten to name that file, without any directory. *)
Theorem source0_names_sdist package p :
  _download_package_sources package = Some p →
  ∃ data meta,
    releases (Package.package p) (Package.version p) = Some data ∧
    head (filter (λ d, Packetizer.packagetype d = "sdist") data)
    = Some meta ∧
    ∀ collect_name self pre result line,
      Str.contains "%define name" line = false →
      Str.contains "%description" line = false →
      Str.contains "%setup" line = false →
      Str.contains "Source0:" line = true →
      Packetizer._patch_spec_data collect_name self p pre = Some result →
      Packetizer._patch_spec_data collect_name self p (pre ++ [line])
      = Some (result ++
              ["Source0: " +:+ Str.basename (Packetizer.filename meta) +:+
               String LF ""]).
Proof.
  intros Hp. apply _download_package_sources_Some in Hp
    as (output & data & meta & _ & _ & _ & Hdata & Hmeta & Harch & _).
  exists data, meta. split_and!; try done.
  intros collect_name self pre result line Hname Hdesc Hsetup Hsource Hpre.
  rewrite _patch_spec_data_snoc, Hpre. simpl.
  unfold Packetizer.patch_line.
  by rewrite Hname, Hdesc, Hsetup, Hsource, Harch, basename_join.
Qed.

(** X14. When [_collect_package_metadata] returns, the name and the version
    it has stored are non-empty and free of white space, and the two
    dependency lists are those that the resolver gives for the stored
    name, the one pip reports, not for the name asked for. *)
Theorem collected_under_reported_name fuel package p :
  _collect_package_metadata fuel package = Returned p →
  (Package.package p ≠ "" ∧
   Str.all_chars (λ c, negb (re_space c)) (Package.package p) = true) ∧
  (Package.version p ≠ "" ∧
   Str.all_chars (λ c, negb (re_space c)) (Package.version p) = true) ∧
  ∃ deps, pipdeptree = Some deps ∧
          Packetizer._parse_deps_tree fuel p deps = Returned p.
Proof.
  unfold Packetizer._collect_package_metadata.
  destruct (pip_show _) as [output|]; [|done]. simpl.
  destruct (search_group1 "Name: " output) as [name|] eqn:Hn; [|done]. simpl.
  destruct (search_group1 "Version: " output) as [version|] eqn:Hv; [|done].
  simpl. destruct pipdeptree as [deps|]; [|done]. simpl.
  apply search_group1_sound in Hn as (? & ? & _).
  apply search_group1_sound in Hv as (? & ? & _).
  intros Hp. apply _parse_deps_tree_again in Hp as (Hp & -> & ->). simpl.
  split_and!; try done. by exists deps.
Qed.

End environment.

(** ** The rewriter, line by line *)

Section rewriter_lines.

Context (collect_name : string → option string) (self : Packetizer.t)
        (package : Package.t).

Local Abbreviation declare := (Packetizer.declare collect_name self).
Local Abbreviation patch_line :=
  (Packetizer.patch_line collect_name self package).
Local Abbreviation _patch_spec_data :=
  (Packetizer._patch_spec_data collect_name self package).

(** The two lines that open every rewritten descriptor. *)
Local Abbreviation heading :=
  [ "%define __python " +:+ Packetizer.system_python self +:+ String LF "";
    "%define original_name " +:+ Package.package package +:+ String LF "" ].

Lemma declare_from_nil result dependency :
  declare result dependency = (result ++.) <$> declare [] dependency.
Proof.
  unfold Packetizer.declare.
  destruct (collect_name _) as [depname|]; [|done]. simpl.
  destruct (_ && _); [done|]. rewrite !foldl_snoc. simpl.
  by rewrite app_assoc.
Qed.

Lemma for_each_declare_from_nil result dependencies :
  for_each declare result dependencies
  = (result ++.) <$> for_each declare [] dependencies.
Proof.
  revert result. induction dependencies as [|d ds IH]; intros result.
  - simpl. by rewrite app_nil_r.
  - rewrite !for_each_cons, (declare_from_nil result).
    destruct (declare [] d) as [r|]; [|done]. simpl.
    rewrite (IH (result ++ r)), (IH r).
    destruct (for_each declare [] ds) as [r'|]; [|done]. simpl.
    by rewrite app_assoc.
Qed.

Lemma declare_None result dependency :
  declare result dependency = None ↔
  collect_name (Dependency.package dependency) = None.
Proof.
  unfold Packetizer.declare.
  destruct (collect_name _) as [depname|]; [|done]. simpl.
  by destruct (_ && _).
Qed.

Lemma for_each_declare_None dependencies :
  for_each declare [] dependencies = None ↔
  ∃ d, d ∈ dependencies ∧ collect_name (Dependency.package d) = None.
Proof.
  induction dependencies as [|d ds IH].
  - split; [done|]. by intros (d & ?%elem_of_nil & _).
  - rewrite for_each_cons.
    destruct (declare [] d) as [r|] eqn:Hd; simpl.
    + rewrite for_each_declare_from_nil.
      assert (is_Some (collect_name (Dependency.package d))) as [n Hn].
      { destruct (collect_name (Dependency.package d)) eqn:E; [done|].
        apply (declare_None []) in E. congruence. }
      destruct (for_each declare [] ds) as [r'|] eqn:Hds; simpl.
      * split; [done|]. intros (d' & [->|Hd']%elem_of_cons & Hnone).
        -- congruence.
        -- assert (Some r' = None) as Hn' by (apply IH; eauto). done.
      * split; [|done]. intros _.
        destruct (proj1 IH eq_refl) as (d' & ? & ?).
        exists d'. split; [by right|done].
    + split; [|done]. intros _. exists d. split; [left|].
      by apply (declare_None []).
Qed.

Lemma patch_line_from_nil result line :
  patch_line result line = (result ++.) <$> patch_line [] line.
Proof.
  unfold Packetizer.patch_line. repeat case_match; try done.
  rewrite for_each_declare_from_nil.
  destruct (for_each declare [] _); [|done]. simpl. by rewrite app_assoc.
Qed.

Lemma for_each_patch_line result lines :
  for_each patch_line result lines
  = outs ← mapM (patch_line []) lines; Some (result ++ mjoin outs).
Proof.
  revert result. induction lines as [|line lines IH]; intros result.
  - simpl. by rewrite app_nil_r.
  - rewrite for_each_cons, patch_line_from_nil. simpl.
    destruct (patch_line [] line) as [out|]; [|done]. simpl.
    rewrite IH. destruct (mapM _ lines) as [outs|]; [|done]. simpl.
    by rewrite app_assoc.
Qed.

Lemma patch_line_None line :
  patch_line [] line = None ↔
  (Str.contains "%define name" line = false ∧
   Str.contains "%description" line = true) ∧
  ∃ d, d ∈ Package.own_deps package ∧
       collect_name (Dependency.package d) = None.
Proof.
  rewrite <- for_each_declare_None. unfold Packetizer.patch_line.
  destruct (Str.contains "%define name" line); [by split; [|intros [[??]_]]|].
  destruct (Str.contains "%description" line).
  - destruct (for_each declare [] _); simpl; [by split; [|intros [_ ?]]|done].
  - repeat case_match; by split; [|intros [[??]_]].
Qed.

End rewriter_lines.

(** X15. The rewriter works line by line: what it returns is the two
    opening lines followed by what each line alone is rewritten to, in the
    order of the lines, and it raises when the rewriting of some line
    does. *)
Theorem _patch_spec_data_linewise collect_name self package lines :
  Packetizer._patch_spec_data collect_name self package lines
  = outs ← mapM (Packetizer.patch_line collect_name self package []) lines;
    Some ([ "%define __python " +:+ Packetizer.system_python self +:+
              String LF "";
            "%define original_name " +:+ Package.package package +:+
              String LF "" ] ++ mjoin outs).
Proof. apply for_each_patch_line. Qed.

(** X16. Lines that hold none of the four triggers are copied as they
    are: the rewritten descriptor is then the two opening lines followed
    by the lines given. *)
Theorem _patch_spec_data_copies collect_name self package lines :
  Forall (λ line, Str.contains "%define name" line = false ∧
                  Str.contains "%description" line = false ∧
                  Str.contains "%setup" line = false ∧
                  Str.contains "Source0:" line = false) lines →
  Packetizer._patch_spec_data collect_name self package lines
  = Some ([ "%define __python " +:+ Packetizer.system_python self +:+
              String LF "";
            "%define original_name " +:+ Package.package package +:+
              String LF "" ] ++ lines).
Proof.
  intros Hlines. unfold Packetizer._patch_spec_data.
  rewrite for_each_patch_line.
  assert (mapM (Packetizer.patch_line collect_name self package []) lines
          = Some ((λ line, [line]) <$> lines)) as ->.
  { apply mapM_Some, Forall2_fmap_r, Forall_Forall2_diag.
    eapply Forall_impl; [exact Hlines|].
    intros line (H1 & H2 & H3 & H4). unfold Packetizer.patch_line.
    by rewrite H1, H2, H3, H4. }
  simpl. do 3 f_equal. induction lines as [|line lines IH]; [done|].
  inv Hlines. simpl. f_equal. by apply IH.
Qed.

Lemma _patch_spec_data_copies_witness :
  Packetizer._patch_spec_data same_name mycompany foo_package
    [ "Summary: foo" +:+ String LF ""; "%build" +:+ String LF "" ]
  = Some [ "%define __python /usr/bin/python3" +:+ String LF "";
           "%define original_name foo" +:+ String LF "";
           "Summary: foo" +:+ String LF ""; "%build" +:+ String LF "" ].
Proof.
  apply (_patch_spec_data_copies same_name mycompany foo_package).
  repeat constructor.
Defined.

(** X17. A line that holds [%define name] is replaced by the definition of
    the name as prefix and package name, whatever else the line holds and
    whatever the lookups would do. *)
Theorem name_line_replaced collect_name self package pre result line :
  Str.contains "%define name" line = true →
  Packetizer._patch_spec_data collect_name self package pre = Some result →
  Packetizer._patch_spec_data collect_name self package (pre ++ [line])
  = Some (result ++
          ["%define name " +:+ Packetizer.prefix self +:+
           Package.package package +:+ String LF ""]).
Proof.
  intros Hname Hpre. rewrite _patch_spec_data_snoc, Hpre. simpl.
  unfold Packetizer.patch_line. by rewrite Hname.
Qed.

Lemma name_line_replaced_witness :
  Packetizer._patch_spec_data (λ _, None) mycompany foo_package
    [ "%define name foo %description" +:+ String LF "" ]
  = Some [ "%define __python /usr/bin/python3" +:+ String LF "";
           "%define original_name foo" +:+ String LF "";
           "%define name mycompany-foo" +:+ String LF "" ].
Proof.
  exact (name_line_replaced (λ _, None) mycompany foo_package []
           [ "%define __python /usr/bin/python3" +:+ String LF "";
             "%define original_name foo" +:+ String LF "" ]
           ("%define name foo %description" +:+ String LF "")
           eq_refl eq_refl).
Defined.

(** X18. The rewriter raises exactly when some line is taken by the
    [%description] rule and the lookup of some dependency in [own_deps]
    raises; in particular it returns on every descriptor when [own_deps]
    is empty. *)
Theorem _patch_spec_data_raises_iff collect_name self package lines :
  Packetizer._patch_spec_data collect_name self package lines = None ↔
  (∃ line, line ∈ lines ∧
           Str.contains "%define name" line = false ∧
           Str.contains "%description" line = true) ∧
  ∃ d, d ∈ Package.own_deps package ∧
       collect_name (Dependency.package d) = None.
Proof.
  unfold Packetizer._patch_spec_data. rewrite for_each_patch_line.
  destruct (mapM _ lines) as [outs|] eqn:Houts; simpl.
  - split; [done|]. intros [(line & Hline & H1 & H2) Hd].
    assert (mapM (Packetizer.patch_line collect_name self package []) lines
            = None); [|congruence].
    apply mapM_None, Exists_exists. exists line. split; [done|].
    by apply patch_line_None.
  - split; [|done]. intros _.
    apply mapM_None, Exists_exists in Houts as (line & Hline & Hnone).
    apply patch_line_None in Hnone as [[H1 H2] Hd].
    split; [|done]. by exists line.
Qed.

Lemma _patch_spec_data_raises_iff_witness :
  Packetizer._patch_spec_data (λ _, None) mycompany foo_package
    [ "%description" +:+ String LF "" ] = None.
Proof.
  apply _patch_spec_data_raises_iff. split.
  - exists ("%description" +:+ String LF ""). split; [left|done].
  - exists (Dependency.mk "depname" "1.0" [] []). split; [left|done].
Defined.

(** ** packetize: which dependencies are built *)

Lemma StronglySorted_filter {A} (R : relation A) (P : A → Prop)
    `{∀ x, Decision (P x)} (l : list A) :
  StronglySorted R l → StronglySorted R (filter P l).
Proof.
  induction 1 as [|x l Hl IH Hx]; [constructor|].
  rewrite filter_cons. case_decide; [|done].
  constructor; [done|]. rewrite Forall_forall in Hx.
  apply Forall_forall. intros y [_ Hy]%list_elem_of_filter. by apply Hx.
Qed.

Section packetize.

Context (install : Package.t → option unit)
        (collect download : Package.t → option Package.t)
        (build : Package.t → option unit)
        (re_search_ignorecase : string → string → option bool).

Local Abbreviation packetize :=
  (Packetizer.packetize install collect download build re_search_ignorecase).
Local Abbreviation packetize_dependent :=
  (Packetizer.packetize_dependent collect download build
     re_search_ignorecase).

(** The three calls made for one dependency. *)
Local Abbreviation built_from := (λ (pair : string * string) dependent,
  ∃ collected,
    collect (Package.new pair.1 pair.2) = Some collected ∧
    download collected = Some dependent ∧
    build dependent = Some ()).

(** Whether the loop passes a name over. *)
Local Abbreviation passed_over := (λ (exclude : string) (pair : string * string),
  exclude ≠ "" ∧ re_search_ignorecase exclude pair.1 = Some true).

Lemma packetize_dependent_Some exclude built pair built' :
  packetize_dependent exclude built pair = Some built' →
  passed_over exclude pair ∧ built' = built ∨
  ¬ passed_over exclude pair ∧
  ∃ dependent, built_from pair dependent ∧ built' = built ++ [dependent].
Proof.
  unfold Packetizer.packetize_dependent. destruct pair as [depname version].
  destruct (decide (exclude = "")) as [Hex|Hex].
  - rewrite bool_decide_eq_true_2 by done. simpl.
    destruct (collect _) as [collected|] eqn:Hc; [|done]. simpl.
    destruct (download _) as [dependent|] eqn:Hd; [|done]. simpl.
    destruct (build _) as [[]|] eqn:Hb; [|done]. simpl.
    intros [= <-]. right. split; [by intros [? _]|].
    exists dependent. split; [by exists collected|done].
  - rewrite bool_decide_eq_false_2 by done.
    destruct (re_search_ignorecase exclude depname) as [[]|] eqn:Hre;
      [| |done]; simpl.
    + intros [= <-]. by left.
    + destruct (collect _) as [collected|] eqn:Hc; [|done]. simpl.
      destruct (download _) as [dependent|] eqn:Hd; [|done]. simpl.
      destruct (build _) as [[]|] eqn:Hb; [|done]. simpl.
      intros [= <-]. right. split; [intros [_ ?]; simpl in *; congruence|].
      exists dependent. split; [by exists collected|done].
Qed.

Lemma packetize_loop exclude built pairs built' :
  for_each (packetize_dependent exclude) built pairs = Some built' →
  ∃ rest, built' = built ++ rest ∧
    Forall2 built_from (filter (λ pair, ¬ passed_over exclude pair) pairs)
            rest.
Proof.
  revert built. induction pairs as [|pair pairs IH]; intros built.
  - intros [= <-]. exists []. by rewrite app_nil_r.
  - rewrite for_each_cons.
    destruct (packetize_dependent exclude built pair) as [built1|] eqn:Hpair;
      [|done].
    simpl. intros (rest & -> & Hrest)%IH.
    apply packetize_dependent_Some in Hpair
      as [[Hpass ->]|[Hpass (dependent & Hdep & ->)]].
    + exists rest. split; [done|]. by rewrite filter_cons_False by (by intros ?).
    + exists (dependent :: rest). rewrite <- app_assoc. split; [done|].
      rewrite filter_cons_True by done. by constructor.
Qed.

Lemma packetize_recursive package verexpr exclude built :
  packetize package verexpr true exclude = Some built →
  ∃ root rest,
    built = root :: rest ∧
    Forall2 built_from
      (filter (λ pair, ¬ passed_over exclude pair)
              (Packetizer.installed_pairs (Package.all_deps root)))
      rest.
Proof.
  unfold Packetizer.packetize.
  destruct (install _) as [[]|]; [|done]. simpl.
  destruct (collect _) as [collected|]; [|done]. simpl.
  destruct (download _) as [root|]; [|done]. simpl.
  destruct (build _) as [[]|]; [|done]. simpl.
  intros (rest & -> & Hrest)%packetize_loop. by exists root, rest.
Qed.

(** X19. When [packetize] returns in recursive mode, it has built, after
    the requested package, one package for each pair of name and installed
    version among the records of [all_deps] whose name the exclusion
    pattern does not match: each such pair once, however many records
    carry it, in ascending order, and no other. *)
Theorem packetize_builds_each_once package verexpr exclude built :
  packetize package verexpr true exclude = Some built →
  ∃ root rest targets,
    built = root :: rest ∧
    Forall2 built_from targets rest ∧
    StronglySorted cmp_lt targets ∧
    ∀ depname version,
      (depname, version) ∈ targets ↔
      (∃ d, d ∈ Package.all_deps root ∧ Dependency.package d = depname ∧
            Dependency.installed d = version) ∧
      ¬ (exclude ≠ "" ∧ re_search_ignorecase exclude depname = Some true).
Proof.
  intros (root & rest & -> & Hrest)%packetize_recursive.
  eexists root, rest, _. split_and!; [done|exact Hrest|..].
  - apply StronglySorted_filter, sorted_set_strict.
  - intros depname version.
    rewrite list_elem_of_filter. unfold Packetizer.installed_pairs.
    rewrite sorted_set_elem, list_elem_of_fmap. simpl. split.
    + intros [Hpass (d & [= -> ->] & Hd)]. split; [|done]. by exists d.
    + intros [(d & Hd & <- & <-) Hpass]. split; [done|]. by exists d.
Qed.

(** X20. With an empty exclusion pattern, the default, recursive mode
    passes no dependency over, whatever the regex engine makes of an empty
    pattern: every pair of name and installed version is built. *)
Theorem packetize_empty_exclude package verexpr built :
  packetize package verexpr true "" = Some built →
  ∃ root rest,
    built = root :: rest ∧
    Forall2 built_from (Packetizer.installed_pairs (Package.all_deps root))
            rest.
Proof.
  intros (root & rest & -> & Hrest)%packetize_recursive.
  exists root, rest. split; [done|].
  assert (∀ l : list (string * string),
            filter (λ pair, ¬ passed_over "" pair) l = l) as Hall.
  { induction l as [|pair l IH]; [done|].
    rewrite filter_cons_True by (by intros [? _]). by rewrite IH. }
  by rewrite Hall in Hrest.
Qed.

End packetize.

(** ** The sample environment at work *)

Lemma unpacked_is_written_witness :
  ∃ p, flask_download (Package.new "flask" "") = Some p ∧
       Package.archive p = "/root/rpmbuild/SOURCES/Flask-1.1.2.tar.gz" ∧
       ∃ data meta,
         flask_releases (Package.package p) (Package.version p) = Some data ∧
         head (filter (λ d, Packetizer.packagetype d = "sdist") data)
         = Some meta ∧
         goes_through (Packetizer.url meta) (Package.archive p) = Some () ∧
         goes_through (Package.archive p) "/root/rpmbuild/PYTHON/temp"
         = Some ().
Proof.
  eexists. split; [vm_compute; reflexivity|]. split; [reflexivity|].
  apply (unpacked_is_written flask_pip_show "/root/rpmbuild/SOURCES"
           "/root/rpmbuild/PYTHON/temp" flask_releases goes_through
           goes_through (Package.new "flask" "")); [reflexivity|].
  vm_compute. reflexivity.
Defined.

Lemma source0_names_sdist_witness :
  ∃ p, flask_download (Package.new "flask" "") = Some p ∧
       Packetizer._patch_spec_data same_name mycompany p
         [ "Source0: %{name}-%{unmangled_version}.tar.gz" +:+ String LF "" ]
       = Some [ "%define __python /usr/bin/python3" +:+ String LF "";
                "%define original_name Flask" +:+ String LF "";
                "Source0: Flask-1.1.2.tar.gz" +:+ String LF "" ].
Proof.
  eexists. split; [vm_compute; reflexivity|].
  destruct (source0_names_sdist flask_pip_show "/root/rpmbuild/SOURCES"
              "/root/rpmbuild/PYTHON/temp" flask_releases goes_through
              goes_through (Package.new "flask" "") _ eq_refl)
    as (data & meta & Hdata & Hmeta & Hline).
  injection Hdata as <-. injection Hmeta as <-.
  exact (Hline same_name mycompany [] _
           ("Source0: %{name}-%{unmangled_version}.tar.gz" +:+ String LF "")
           eq_refl eq_refl eq_refl eq_refl eq_refl).
Defined.

Lemma collected_under_reported_name_witness :
  ∃ p, Packetizer._collect_package_metadata flask_pip_show
         (Some flask_report) 5 (Package.new "flask" "") = Returned p ∧
       Package.package p = "Flask" ∧ Package.version p = "1.1.2" ∧
       length (Package.all_deps p) = 3 ∧
       ∃ deps, Some flask_report = Some deps ∧
               Packetizer._parse_deps_tree 5 p deps = Returned p.
Proof.
  eexists. split; [vm_compute; reflexivity|].
  split; [reflexivity|]. split; [reflexivity|]. split; [reflexivity|].
  apply (collected_under_reported_name flask_pip_show (Some flask_report) 5
           (Package.new "flask" "")).
  vm_compute. reflexivity.
Defined.

Lemma packetize_builds_each_once_witness :
  ∃ built,
    Packetizer.packetize (λ _, Some ()) flask_collect flask_download
      (λ _, Some ()) plain_search "flask" "" true "Markup" = Some built ∧
    Package.package <$> built = ["Flask"; "Jinja2"; "Werkzeug"] ∧
    ∃ root rest targets,
      built = root :: rest ∧
      length targets = length rest ∧
      StronglySorted cmp_lt targets ∧
      (("MarkupSafe", "1.1.1") ∈ targets ↔
       (∃ d, d ∈ Package.all_deps root ∧
             Dependency.package d = "MarkupSafe" ∧
             Dependency.installed d = "1.1.1") ∧
       ¬ ("Markup" ≠ "" ∧ plain_search "Markup" "MarkupSafe" = Some true)).
Proof.
  eexists. split; [vm_compute; reflexivity|]. split; [reflexivity|].
  destruct (packetize_builds_each_once (λ _, Some ()) flask_collect
              flask_download (λ _, Some ()) plain_search "flask" "" "Markup"
              _ eq_refl)
    as (root & rest & targets & Hbuilt & Hrest & Hsorted & Htargets).
  exists root, rest, targets. split_and!; try done.
  by eapply Forall2_length.
Defined.

Lemma packetize_empty_exclude_witness :
  ∃ built,
    Packetizer.packetize (λ _, Some ()) flask_collect flask_download
      (λ _, Some ()) plain_search "flask" "" true "" = Some built ∧
    plain_search "" "MarkupSafe" = Some true ∧
    Package.package <$> built
    = ["Flask"; "Jinja2"; "MarkupSafe"; "Werkzeug"] ∧
    ∃ root rest,
      built = root :: rest ∧
      length (Packetizer.installed_pairs (Package.all_deps root))
      = length rest.
Proof.
  eexists. split; [vm_compute; reflexivity|]. split; [reflexivity|].
  split; [reflexivity|].
  destruct (packetize_empty_exclude (λ _, Some ()) flask_collect
              flask_download (λ _, Some ()) plain_search "flask" "" _ eq_refl)
    as (root & rest & Hbuilt & Hrest).
  exists root, rest. split; [done|]. by eapply Forall2_length.
Defined.

(** ** Sample runs *)

Example split_keeps_empty_parts :
  Str.split ","%char ",a,," = [""; "a"; ""; ""].
Proof. reflexivity. Qed.

Example contains_samples :
  Str.contains "%setup" "x %setup -q" = true ∧
  Str.contains "%setup" "x %setu -q" = false ∧
  Str.contains "" "" = true.
Proof. by split_and!. Qed.

Example basename_samples :
  Str.basename "/sources/foo-1.2.3.tar.gz" = "foo-1.2.3.tar.gz" ∧
  Str.basename "a/b/" = "" ∧
  Str.basename "abc" = "abc".
Proof. by split_and!. Qed.

(** A part without an operator goes to requires with an empty operator,
    and a final line feed is not part of the version. *)
Example _requires_samples :
  Dependency._requires "1.0,,~=2" = Some ([("", "1.0"); ("", ""); ("", "~=2")], []) ∧
  Dependency._requires ("1" +:+ String LF "") = Some ([("", "1")], []).
Proof. by split_and!. Qed.

(** The walk on the Flask report, last item first. *)
Example flatify_flask :
  Report.package_name <$>
    default [] (Packetizer.flatify 3 flask_report []
                  (listed flask_report "Flask"))
  = ["Werkzeug"; "Jinja2"; "MarkupSafe"].
Proof. reflexivity. Qed.

(** Resolving the same report twice gives the same lists. *)
Example resolve_flask :
  Packetizer._parse_deps_tree 3 (Package.new "Flask" "") flask_report
  = Returned
      (Package.set_deps (Package.new "Flask" "")
         [ Dependency.mk "Jinja2" "2.11.2" [(">=", "2.10.1")] [];
           Dependency.mk "Werkzeug" "1.0.1" [(">=", "0.15")] [("!=", "0.16.0")] ]
         [ Dependency.mk "Jinja2" "2.11.2" [(">=", "2.10.1")] [];
           Dependency.mk "MarkupSafe" "1.1.1" [(">=", "0.23")] [];
           Dependency.mk "Werkzeug" "1.0.1" [(">=", "0.15")] [("!=", "0.16.0")] ]).
Proof. vm_compute. reflexivity. Qed.
